(** * Sharding specifications of [torch.distributed._shard.sharding_spec.api]

    A shallow embedding of [ChunkShardingSpec] and [EnumerableShardingSpec]:
    Python integers are [Z], Python lists are [list], exceptions are the
    [Raise] branch of [result], and the effects of [shard] (the caller's
    placements list, the collective calls, fresh tensor storage) are threaded
    through an explicit [World]. *)

From Stdlib Require Import ZArith Lia.
From stdpp Require Import gmap strings list.

Local Open Scope Z_scope.

(** ** Exceptions and the error monad *)

(** The message of an exception, kept structured rather than as text. *)
Inductive Reason : Type :=
  | NamedDimension                      (* "does not support named dimension yet!" *)
  | DimNotInteger                       (* "Sharding dim needs to be an integer" *)
  | InvalidShardingDim (d : Z)          (* "Invalid sharding dim: {dim}" *)
  | EmptyShardList                      (* "Empty shard list provided" *)
  | InconsistentRanks (r1 r2 : Z)       (* "Found inconsistent ranks for shards" *)
  | InvalidRank (r : Z)                 (* placement rank outside the group *)
  | InvalidPlacement                    (* placement string that does not parse *)
  | ShardNotImplemented.                (* "EnumerableShardingSpec.shard not implemented yet!" *)

Inductive PyExc : Type :=
  | ValueError (why : Reason)
  | NotImplementedError (why : Reason)
  | TypeError
  | IndexError
  | RuntimeError
  | ZeroDivisionError
  | OverlapError
  | ShapeMismatchError.

Inductive result (A : Type) : Type :=
  | Ok (a : A)
  | Raise (e : PyExc).
Arguments Ok {A} a.
Arguments Raise {A} e.

Definition rbind {A B} (r : result A) (k : A → result B) : result B :=
  match r with
  | Ok a => k a
  | Raise e => Raise e
  end.

Declare Scope py_scope.
Delimit Scope py_scope with py.
Notation "'let!' x ':=' r 'in' k" := (rbind r (fun x => k))
  (at level 10, x name, r at level 100, k at level 200) : py_scope.
Notation "'check!' r 'in' k" := (rbind r (fun _ => k))
  (at level 10, r at level 100, k at level 200) : py_scope.
Local Open Scope py_scope.

Definition is_ok {A} (r : result A) : bool :=
  match r with Ok _ => true | Raise _ => false end.

(** ** Python sequence indexing

    [l[i]] accepts [-len(l) <= i < len(l)]; a negative index counts from
    the end. Anything else raises [IndexError]. *)

Definition py_index (n : nat) (i : Z) : option nat :=
  if (0 <=? i) && (i <? Z.of_nat n) then Some (Z.to_nat i)
  else if (- Z.of_nat n <=? i) && (i <? 0) then Some (Z.to_nat (i + Z.of_nat n))
  else None.

Definition py_getitem {A} (l : list A) (i : Z) : result A :=
  match py_index (length l) i with
  | Some k => match l !! k with Some x => Ok x | None => Raise IndexError end
  | None => Raise IndexError
  end.

Definition py_setitem {A} (l : list A) (i : Z) (x : A) : result (list A) :=
  match py_index (length l) i with
  | Some k => Ok (<[k:=x]> l)
  | None => Raise IndexError
  end.

Definition sum_Z (l : list Z) : Z := foldr Z.add 0 l.

(** ** Data model *)

(** [torch.distributed._remote_device]: a rank and, optionally, a device
    on that rank. *)
Record remote_device : Type := RemoteDevice {
  rd_rank : Z;
  rd_device : option string
}.

(** An element of a placements list: [Union[_remote_device, str]]. *)
Inductive Placement : Type :=
  | PStr (s : string)
  | PDev (d : remote_device).

Definition is_remote_device (p : Placement) : bool :=
  match p with PDev _ => true | PStr _ => false end.

(** [ShardMetadata] of [..metadata]. *)
Record ShardMetadata : Type := mkShardMetadata {
  shard_offsets : list Z;
  shard_sizes : list Z;
  placement : Placement
}.

(** [sharded_tensor_meta.TensorProperties]. *)
Record TensorProperties : Type := mkTensorProperties {
  tp_dtype : string;
  tp_layout : string;
  tp_requires_grad : bool;
  tp_memory_format : string;
  tp_pin_memory : bool
}.

(** [sharded_tensor_meta.ShardedTensorMetadata]. *)
Record ShardedTensorMetadata : Type := mkShardedTensorMetadata {
  shards_metadata : list ShardMetadata;
  stm_size : list Z;
  stm_tensor_properties : TensorProperties
}.

(** [dim: Union[int, str]]; [DimOther] stands for a value of any other
    type that a caller may pass. *)
Inductive ShardingDim : Type :=
  | DimInt (d : Z)
  | DimStr (name : string)
  | DimOther.

(** Python list objects live in a store; a spec holds a reference to the
    caller's placements list, not a copy of it. *)
Definition loc := nat.
Abbreviation Heap := (gmap loc (list Placement)).

Record ChunkShardingSpec : Type := mkChunkShardingSpec {
  dim : ShardingDim;
  placements : loc
}.

Record EnumerableShardingSpec : Type := mkEnumerableShardingSpec {
  shards : list ShardMetadata
}.

(** ** Tensors

    A tensor is a view on a storage buffer. [t_elems] reads the element at
    a coordinate through the view; [t_grad_fn] is the autograd node that
    produced the tensor, [None] for a leaf. *)
Record Tensor : Type := mkTensor {
  t_storage : nat;
  t_size : list Z;
  t_elems : list Z → Z;
  t_dtype : string;
  t_layout : string;
  t_requires_grad : bool;
  t_grad_fn : option string;
  t_pinned : bool
}.

Definition is_leaf (t : Tensor) : bool :=
  match t_grad_fn t with None => true | Some _ => false end.

Definition shares_storage (a b : Tensor) : bool :=
  Nat.eqb (t_storage a) (t_storage b).

(** [Shard] of [sharded_tensor.shard]: a local tensor with its metadata. *)
Record Shard : Type := mkShard {
  sh_tensor : Tensor;
  sh_metadata : ShardMetadata
}.

Definition ProcessGroup := nat.

(** The handle the distribution returns ([ShardedTensor]). *)
Record ShardedTensor : Type := mkShardedTensor {
  st_local_shards : list Shard;
  st_size : list Z;
  st_process_group : option ProcessGroup;
  _sharding_spec : option ChunkShardingSpec
}.

(** ** The world a rank runs in *)

(** The collectives a rank takes part in: the broadcast of [shard], and
    the all-gather by which the handle constructor has the ranks of a group
    exchange their local metadata. *)
Inductive Event : Type :=
  | Broadcast (storage : nat) (src : Z) (group : option ProcessGroup)
  | AllGatherObject (group : option ProcessGroup).

Record World : Type := mkWorld {
  heap : Heap;
  collectives : list Event;
  next_storage : nat
}.

(** What one rank sees of the distributed runtime: its own rank in a
    group, the size of a group, the data the source rank sends in a
    broadcast, and whether the transport completes the broadcast. The
    last two fields are what the rank sees of the handle constructor
    [ShardedTensor._init_from_local_shards], whose outcome depends on the
    shards the other ranks hold: the collectives it issues and the
    exception it raises, if any. *)
Record DistEnv : Type := mkDistEnv {
  _get_default_group : ProcessGroup;
  get_rank : option ProcessGroup → Z;
  get_world_size : option ProcessGroup → Z;
  broadcast_payload : Z → list Z → Z;
  broadcast_failure : Z → option ProcessGroup → option PyExc;
  init_collectives :
    list Shard → list Z → option ProcessGroup → list Event;
  init_failure :
    list Shard → list Z → option ProcessGroup → option PyExc
}.

(** State and exceptions: an exception keeps the world reached so far. *)
Definition M (A : Type) : Type := World → result A * World.

Definition mret {A} (a : A) : M A := fun w => (Ok a, w).
Definition mraise {A} (e : PyExc) : M A := fun w => (Raise e, w).
Definition mbind' {A B} (m : M A) (k : A → M B) : M B :=
  fun w => match m w with
           | (Ok a, w') => k a w'
           | (Raise e, w') => (Raise e, w')
           end.
Definition lift {A} (r : result A) : M A := fun w => (r, w).
Definition read_heap : M Heap := fun w => (Ok (heap w), w).

Declare Scope world_scope.
Delimit Scope world_scope with world.
Notation "'do!' x ':=' m 'in' k" := (mbind' m (fun x => k))
  (at level 10, x name, m at level 100, k at level 200) : world_scope.
Local Open Scope world_scope.

(** ** Helpers of [._internals] *)

(** The ceiling of [a / b] for a positive [b]: the least [q] with
    [a <= q * b] (lemma [ceil_div_bounds]). For [b = 0] it is 0, as [Z]'s
    division is. *)
Definition ceil_div (a b : Z) : Z := - ((- a) / b).

(** Modelled from the spec: [get_split_size] is imported from
    [._internals], which is not among the sources. The spec gives it as
    [computeSplitSize], returning ceil(dimSize / numChunks). The quotient
    has no value for zero chunks, where Python's integer division raises
    [ZeroDivisionError]. *)
Definition get_split_size (dim_size chunks : Z) : result Z :=
  if chunks =? 0 then Raise ZeroDivisionError
  else Ok (ceil_div dim_size chunks).

(** Modelled from the spec: [get_chunked_dim_size] is imported from
    [._internals], which is not among the sources. The spec gives it as
    [computeChunkSizeAt], returning
    max(0, min(splitSize, dimSize - chunkIndex * splitSize)). *)
Definition get_chunked_dim_size (dim_size split_size idx : Z) : Z :=
  Z.max 0 (Z.min split_size (dim_size - idx * split_size)).

(** ** [ChunkShardingSpec] *)

Definition _verify_dim (dim : ShardingDim) : result unit :=
  match dim with
  | DimStr _ => Raise (NotImplementedError NamedDimension)
  | DimInt _ => Ok tt
  | DimOther => Raise (ValueError DimNotInteger)
  end.

(** The body of the [for idx, placement in enumerate(self.placements)]
    loop of [build_metadata], from index [idx] on. *)
Fixpoint build_metadata_loop (d : Z) (tensor_sizes : list Z)
    (sharding_dim_size split_size : Z) (idx : Z)
    (rest : list Placement) (shards_metadata : list ShardMetadata)
    : result (list ShardMetadata) :=
  match rest with
  | [] => Ok shards_metadata
  | placement :: rest =>
      let chunked_dim_size :=
        get_chunked_dim_size sharding_dim_size split_size idx in
      if chunked_dim_size >? 0 then
        let shard_size := tensor_sizes in
        let current_offsets := replicate (length tensor_sizes) 0 in
        let! current_offsets := py_setitem current_offsets d (split_size * idx) in
        let! shard_size := py_setitem shard_size d chunked_dim_size in
        let shard_metadata :=
          mkShardMetadata current_offsets shard_size placement in
        build_metadata_loop d tensor_sizes sharding_dim_size split_size
          (idx + 1) rest (shards_metadata ++ [shard_metadata])
      else
        build_metadata_loop d tensor_sizes sharding_dim_size split_size
          (idx + 1) rest shards_metadata
  end.

Definition build_metadata (env : DistEnv) (h : Heap) (self : ChunkShardingSpec)
    (tensor_sizes : list Z) (tensor_properties : TensorProperties)
    (process_group : option ProcessGroup) : result ShardedTensorMetadata :=
  let pg := match process_group with
            | Some g => g
            | None => _get_default_group env
            end in
  let tensor_num_dim := Z.of_nat (length tensor_sizes) in
  check! _verify_dim (dim self) in
  match dim self with
  | DimInt d =>
      if (d >=? tensor_num_dim) || (d <? - tensor_num_dim) then
        Raise (ValueError (InvalidShardingDim d))
      else
        let! sharding_dim_size := py_getitem tensor_sizes d in
        let chunks := Z.of_nat (length (h !!! placements self)) in
        let! split_size := get_split_size sharding_dim_size chunks in
        let! shards_metadata :=
          build_metadata_loop d tensor_sizes sharding_dim_size split_size
            0 (h !!! placements self) [] in
        Ok (mkShardedTensorMetadata shards_metadata tensor_sizes
              tensor_properties)
  | _ => Raise TypeError  (* comparing a non-integer with an integer *)
  end.

(** [__post_init__]: the loop assigns [self.placements[i]] in the
    caller's list object. The assignment at index [i] changes neither the
    length nor any later element, so the elements still to visit are the
    ones the list held when the loop started. *)
Fixpoint post_init_loop (_remote_device : string → result remote_device)
    (l : loc) (i : nat) (rest : list Placement) : M unit :=
  match rest with
  | [] => mret tt
  | PDev _ :: rest => post_init_loop _remote_device l (S i) rest
  | PStr s :: rest =>
      fun w =>
        match _remote_device s with
        | Ok d =>
            post_init_loop _remote_device l (S i) rest
              (mkWorld (<[l := <[i := PDev d]> (heap w !!! l)]> (heap w))
                       (collectives w) (next_storage w))
        | Raise e => (Raise e, w)
        end
  end.

Definition ChunkShardingSpec_post_init
    (_remote_device : string → result remote_device)
    (self : ChunkShardingSpec) : M unit :=
  do! _u := lift (_verify_dim (dim self)) in
  do! h := read_heap in
  post_init_loop _remote_device (placements self) 0 (h !!! placements self).

(** [ChunkShardingSpec(dim, placements)]: the dataclass stores its two
    arguments and runs [__post_init__]. *)
Definition ChunkShardingSpec_new
    (_remote_device : string → result remote_device)
    (dim : ShardingDim) (placements : loc) : M ChunkShardingSpec :=
  let self := mkChunkShardingSpec dim placements in
  do! _u := ChunkShardingSpec_post_init _remote_device self in
  mret self.

(** ** Tensor primitives

    The tensor library is not among the sources; the spec lists what
    is consumed of it: size query, dimension-wise slice-by-range,
    independent copy, detached lineage, contiguous re-layout and
    gradient-flag read/write. *)

(** Modelled from the spec: [tensor.size(idx)], the size query. *)
Definition tensor_size_at (t : Tensor) (idx : Z) : result Z :=
  py_getitem (t_size t) idx.

(** Modelled from the spec: [t.narrow(dim, start, len)], the slice by
    range along one dimension; a view on the same storage, recorded by
    autograd when [t] requires grad. *)
Definition narrow (t : Tensor) (dim start len : Z) : result Tensor :=
  match py_index (length (t_size t)) dim with
  | None => Raise IndexError
  | Some k =>
      match t_size t !! k with
      | None => Raise IndexError
      | Some n =>
          if (0 <=? start) && (0 <=? len) && (start + len <=? n) then
            Ok (mkTensor (t_storage t) (<[k := len]> (t_size t))
                  (fun c => t_elems t (alter (Z.add start) k c))
                  (t_dtype t) (t_layout t) (t_requires_grad t)
                  (if t_requires_grad t then Some "NarrowBackward"%string
                   else t_grad_fn t)
                  (t_pinned t))
          else Raise RuntimeError
      end
  end.

(** Modelled from the spec: [t.clone()], the independent copy; the
    same elements in a storage of its own, recorded by autograd when [t]
    requires grad. *)
Definition clone (t : Tensor) : M Tensor :=
  fun w =>
    (Ok (mkTensor (next_storage w) (t_size t) (t_elems t)
           (t_dtype t) (t_layout t) (t_requires_grad t)
           (if t_requires_grad t then Some "CloneBackward"%string
            else t_grad_fn t)
           (t_pinned t)),
     mkWorld (heap w) (collectives w) (S (next_storage w))).

(** Modelled from the spec: [t.detach()], the detached lineage; same
    storage, cut from the autograd graph. *)
Definition detach (t : Tensor) : Tensor :=
  mkTensor (t_storage t) (t_size t) (t_elems t) (t_dtype t) (t_layout t)
    false None (t_pinned t).

(** Modelled from the spec: [t.contiguous()], the contiguous
    re-layout; it returns [t] itself when [t] is contiguous, which a tensor
    that was just cloned is. *)
Definition contiguous (t : Tensor) : Tensor := t.

(** Modelled from the spec: [t.requires_grad = b], the gradient-flag
    write. The flag of a tensor that is not a leaf cannot be assigned:
    the write raises [RuntimeError], whatever the value. *)
Definition set_requires_grad (t : Tensor) (b : bool) : result Tensor :=
  if negb (is_leaf t) then Raise RuntimeError
  else Ok (mkTensor (t_storage t) (t_size t) (t_elems t) (t_dtype t)
             (t_layout t) b (t_grad_fn t) (t_pinned t)).

(** ** Collectives and placement resolution *)

(** Modelled from the spec: [dist.broadcast(tensor, src, group)], the
    blocking collective every rank calls. The call is recorded in the
    world; when the transport completes it, the tensor is overwritten in
    place with the data of the source rank; when it does not
    (CollectiveFailure), the transport's exception propagates. *)
Definition broadcast (env : DistEnv) (tensor : Tensor) (src : Z)
    (group : option ProcessGroup) : M Tensor :=
  fun w =>
    let w' :=
      mkWorld (heap w)
        (collectives w ++ [Broadcast (t_storage tensor) src group])
        (next_storage w) in
    match broadcast_failure env src group with
    | Some e => (Raise e, w')
    | None =>
        (Ok (mkTensor (t_storage tensor) (t_size tensor)
               (broadcast_payload env src)
               (t_dtype tensor) (t_layout tensor) (t_requires_grad tensor)
               (t_grad_fn tensor) (t_pinned tensor)), w')
    end.

(** Modelled from the spec: [_parse_and_validate_remote_device] of
    [sharded_tensor.utils] is not among the sources. The spec describes it
    as parsing a placement string or object into a [(rank, device)] pair,
    validated against group membership: the rank must be one of the
    group's. *)
Definition _parse_and_validate_remote_device
    (_remote_device : string → result remote_device) (env : DistEnv)
    (pg : option ProcessGroup) (p : Placement) : result (Z * option string) :=
  let! d := match p with
            | PStr s => _remote_device s
            | PDev d => Ok d
            end in
  if (0 <=? rd_rank d) && (rd_rank d <? get_world_size env pg) then
    Ok (rd_rank d, rd_device d)
  else Raise (ValueError (InvalidRank (rd_rank d))).

(** Modelled from the spec: [ShardedTensor._init_from_local_shards] is
    not among the sources. The spec has it construct the handle from the
    local shard/descriptor pairs, the global shape and the process
    group, and leaves the container itself outside. The constructor is a
    collective call of its own: on a group of several ranks it gathers the
    local metadata of every rank ([all_gather_object]), and it raises when
    the gathered metadata is not that of a tensor, for instance when no
    rank holds a shard. Both depend on the other ranks, so the environment
    supplies them: the collectives are recorded in the world, then the
    exception is raised or the handle is returned. *)
Definition _init_from_local_shards (env : DistEnv)
    (local_shards : list Shard) (size : list Z)
    (process_group : option ProcessGroup) : M ShardedTensor :=
  fun w =>
    let w' :=
      mkWorld (heap w)
        (collectives w
           ++ init_collectives env local_shards size process_group)
        (next_storage w) in
    match init_failure env local_shards size process_group with
    | Some e => (Raise e, w')
    | None =>
        (Ok (mkShardedTensor local_shards size process_group None), w')
    end.

(** ** [ChunkShardingSpec.shard] *)

(** The loop over [enumerate(zip(shard_offsets, shard_sizes))]. *)
Fixpoint narrow_loop (tensor : Tensor) (shard_offsets shard_sizes : list Z)
    (idx : Z) (rest : list (Z * Z)) (local_tensor : Tensor) : M Tensor :=
  match rest with
  | [] => mret local_tensor
  | (offset, size) :: rest =>
      do! dim_size := lift (tensor_size_at tensor idx) in
      if size <? dim_size then
        do! start := lift (py_getitem shard_offsets idx) in
        do! len := lift (py_getitem shard_sizes idx) in
        do! narrowed := lift (narrow local_tensor idx start len) in
        do! cloned := clone narrowed in
        narrow_loop tensor shard_offsets shard_sizes (idx + 1) rest
          (contiguous (detach cloned))
      else
        narrow_loop tensor shard_offsets shard_sizes (idx + 1) rest
          local_tensor
  end.

(** The loop over [tensor_meta.shards_metadata]. *)
Fixpoint shard_loop (_remote_device : string → result remote_device)
    (env : DistEnv) (process_group : option ProcessGroup)
    (current_rank : Z) (tensor : Tensor)
    (rest : list ShardMetadata) (local_shards : list Shard)
    : M (list Shard) :=
  match rest with
  | [] => mret local_shards
  | shard_meta :: rest =>
      do! rd := lift (_parse_and_validate_remote_device _remote_device env
                        process_group (placement shard_meta)) in
      let rank := fst rd in
      if rank =? current_rank then
        let shard_offsets := shard_offsets shard_meta in
        let shard_sizes := shard_sizes shard_meta in
        let local_tensor := tensor in
        do! local_tensor :=
          narrow_loop tensor shard_offsets shard_sizes 0
            (zip shard_offsets shard_sizes) local_tensor in
        do! local_tensor :=
          lift (set_requires_grad local_tensor (t_requires_grad tensor)) in
        shard_loop _remote_device env process_group current_rank tensor rest
          (local_shards ++ [mkShard local_tensor shard_meta])
      else
        shard_loop _remote_device env process_group current_rank tensor rest
          local_shards
  end.

Definition shard (_remote_device : string → result remote_device)
    (env : DistEnv) (self : ChunkShardingSpec) (tensor : Tensor)
    (src_rank : Z) (process_group : option ProcessGroup) : M ShardedTensor :=
  let tensor_properties :=
    mkTensorProperties (t_dtype tensor) (t_layout tensor)
      (t_requires_grad tensor) "contiguous_format" (t_pinned tensor) in
  do! h := read_heap in
  do! tensor_meta :=
    lift (build_metadata env h self (t_size tensor) tensor_properties
            process_group) in
  let local_shards := [] in
  let current_rank := get_rank env process_group in
  do! tensor := broadcast env tensor src_rank process_group in
  do! local_shards :=
    shard_loop _remote_device env process_group current_rank tensor
      (shards_metadata tensor_meta) local_shards in
  do! st := _init_from_local_shards env local_shards (t_size tensor)
              process_group in
  mret (mkShardedTensor (st_local_shards st) (st_size st)
          (st_process_group st) (Some self)).

(** ** Shard geometry

    A shard is the box of the coordinates [c] with
    [offset_k <= c_k < offset_k + size_k] in every dimension [k]. *)

Definition in_box (c : list Z) (s : ShardMetadata) : bool :=
  Nat.eqb (length c) (length (shard_offsets s))
  && Nat.eqb (length c) (length (shard_sizes s))
  && forallb (fun '(x, (o, z)) => (o <=? x) && (x <? o + z))
       (zip c (zip (shard_offsets s) (shard_sizes s))).

(** The coordinates of a tensor of the given shape. *)
Definition in_shape (c : list Z) (tensor_sizes : list Z) : bool :=
  Nat.eqb (length c) (length tensor_sizes)
  && forallb (fun '(x, n) => (0 <=? x) && (x <? n)) (zip c tensor_sizes).

Definition within_shape (s : ShardMetadata) (tensor_sizes : list Z) : bool :=
  Nat.eqb (length (shard_offsets s)) (length tensor_sizes)
  && Nat.eqb (length (shard_sizes s)) (length tensor_sizes)
  && forallb (fun '((o, z), n) => (0 <=? o) && (o + z <=? n))
       (zip (zip (shard_offsets s) (shard_sizes s)) tensor_sizes).

Definition cover_count (shards : list ShardMetadata) (c : list Z) : nat :=
  length (List.filter (in_box c) shards).

(** What the spec asks of a valid enumeration, as propositions: two
    shards overlap when some coordinate lies in both boxes, and the shards
    tile a shape when none overruns it and every coordinate of the shape
    lies in exactly one of them. *)
Definition boxes_overlap (s1 s2 : ShardMetadata) : Prop :=
  ∃ c, in_box c s1 = true ∧ in_box c s2 = true.

Definition tiles_exactly (shards : list ShardMetadata)
    (tensor_sizes : list Z) : Prop :=
  (∀ s, s ∈ shards → within_shape s tensor_sizes = true)
  ∧ (∀ c, in_shape c tensor_sizes = true → cover_count shards c = 1%nat).

(** Modelled from the spec: the box-intersection test of
    [checkNoOverlap]; two boxes intersect when their ranges meet in every
    dimension. *)
Definition _check_shard_metadata_pair_overlap (s1 s2 : ShardMetadata) : bool :=
  forallb (fun '((o1, z1), (o2, z2)) => (o1 <? o2 + z2) && (o2 <? o1 + z1))
    (zip (zip (shard_offsets s1) (shard_sizes s1))
         (zip (shard_offsets s2) (shard_sizes s2))).

(** Modelled from the spec: [validate_non_overlapping_shards_metadata]
    of [._internals] is not among the sources. The spec gives it as
    [checkNoOverlap]: a pairwise box-intersection test that fails with
    OverlapError when any two shard boxes intersect. *)
Fixpoint validate_non_overlapping_shards_metadata
    (shards : list ShardMetadata) : result unit :=
  match shards with
  | [] => Ok tt
  | s :: rest =>
      if existsb (_check_shard_metadata_pair_overlap s) rest then
        Raise OverlapError
      else validate_non_overlapping_shards_metadata rest
  end.

(** The addressable space of a shape, swept in row-major order. *)
Fixpoint all_coords (tensor_sizes : list Z) : list (list Z) :=
  match tensor_sizes with
  | [] => [[]]
  | n :: rest =>
      flat_map (fun x => map (cons x) (all_coords rest)) (seqZ 0 n)
  end.

(** Modelled from the spec: [check_tensor] of [._internals] is not
    among the sources. The spec gives it as [checkTensorCoverage]: a
    coordinate sweep over the addressable space that fails with
    ShapeMismatchError when the shards do not exactly tile the global
    size; every shard must lie within bounds. *)
Definition check_tensor (shards : list ShardMetadata)
    (tensor_sizes : list Z) : result unit :=
  if forallb (fun s => within_shape s tensor_sizes) shards
     && forallb (fun c => Nat.eqb (cover_count shards c) 1)
          (all_coords tensor_sizes)
  then Ok tt
  else Raise ShapeMismatchError.

(** ** [EnumerableShardingSpec] *)

(** The loop of [__post_init__] that compares the rank of each shard with
    the rank of the shard before it; [rank] starts at [-1]. *)
Fixpoint rank_loop (rank : Z) (rest : list ShardMetadata) : result unit :=
  match rest with
  | [] => Ok tt
  | shard :: rest =>
      let n := Z.of_nat (length (shard_offsets shard)) in
      if negb (rank =? -1) && negb (rank =? n) then
        Raise (ValueError (InconsistentRanks rank n))
      else rank_loop n rest
  end.

Definition EnumerableShardingSpec_post_init (self : EnumerableShardingSpec)
    : result unit :=
  if Nat.eqb (length (shards self)) 0 then
    Raise (ValueError EmptyShardList)
  else
    check! rank_loop (-1) (shards self) in
    validate_non_overlapping_shards_metadata (shards self).

Definition EnumerableShardingSpec_new (shards : list ShardMetadata)
    : result EnumerableShardingSpec :=
  let self := mkEnumerableShardingSpec shards in
  check! EnumerableShardingSpec_post_init self in
  Ok self.

Definition Enumerable_build_metadata (self : EnumerableShardingSpec)
    (tensor_sizes : list Z) (tensor_properties : TensorProperties)
    (process_group : option ProcessGroup) : result ShardedTensorMetadata :=
  check! check_tensor (shards self) tensor_sizes in
  Ok (mkShardedTensorMetadata (shards self) tensor_sizes tensor_properties).

Definition Enumerable_shard (self : EnumerableShardingSpec) (tensor : Tensor)
    (src_rank : Z) (process_group : option ProcessGroup) : M ShardedTensor :=
  mraise (NotImplementedError ShardNotImplemented).

(** ** Closed forms used in the statements *)

(** Negative-index normalization of a dimension over [n] dimensions. *)
Definition normalize_dim (d n : Z) : Z := if d <? 0 then d + n else d.

(** The descriptor of chunk [i] on dimension [k]: offsets all zero except
    [split * i] at [k], sizes those of the tensor except the chunk size at
    [k]. *)
Definition chunk_descriptor (k : nat) (tensor_sizes : list Z)
    (dim_size split : Z) (i : Z) (p : Placement) : ShardMetadata :=
  mkShardMetadata
    (<[k := split * i]> (replicate (length tensor_sizes) 0))
    (<[k := get_chunked_dim_size dim_size split i]> tensor_sizes)
    p.

(** One descriptor per placement whose chunk is not empty, in list order. *)
Definition chunk_descriptors (k : nat) (tensor_sizes : list Z)
    (dim_size split : Z) (pls : list Placement) : list ShardMetadata :=
  mjoin (imap (fun i p =>
                 if 0 <? get_chunked_dim_size dim_size split (Z.of_nat i)
                 then [chunk_descriptor k tensor_sizes dim_size split
                         (Z.of_nat i) p]
                 else [])
           pls).

(** Two half-open ranges [[o1, o1 + z1)] and [[o2, o2 + z2)] do not meet. *)
Definition ranges_disjoint (o1 z1 o2 z2 : Z) : Prop :=
  o1 + z1 ≤ o2 ∨ o2 + z2 ≤ o1.

(** The rank a shard's placement resolves to in a group, when it does. *)
Definition resolved_rank (_remote_device : string → result remote_device)
    (env : DistEnv) (pg : option ProcessGroup) (s : ShardMetadata)
    : option Z :=
  match _parse_and_validate_remote_device _remote_device env pg
          (placement s) with
  | Ok rd => Some (fst rd)
  | Raise _ => None
  end.

Definition assigned_to (_remote_device : string → result remote_device)
    (env : DistEnv) (pg : option ProcessGroup) (r : Z) (s : ShardMetadata)
    : bool :=
  match resolved_rank _remote_device env pg s with
  | Some r' => r' =? r
  | None => false
  end.

(** What [__post_init__] leaves at an index of the placements list: a
    device stays, a string is replaced by the device it parses to. *)
Definition parsed_as (_remote_device : string → result remote_device)
    (before after : Placement) : Prop :=
  match before with
  | PDev d => after = PDev d
  | PStr s => ∃ d, _remote_device s = Ok d ∧ after = PDev d
  end.

(** ** Sample inputs *)

Definition rank_dev (r : Z) : Placement := PDev (RemoteDevice r None).

(** A parser of placement strings that knows no string at all. *)
Definition no_strings (s : string) : result remote_device :=
  Raise (ValueError InvalidPlacement).

(** A parser that reads ["rank:0"] and ["rank:1"] only. *)
Definition two_ranks (s : string) : result remote_device :=
  if String.eqb s "rank:0" then Ok (RemoteDevice 0 None)
  else if String.eqb s "rank:1" then Ok (RemoteDevice 1 None)
  else Raise (ValueError InvalidPlacement).

(** A group of [size] ranks seen from rank [r]; the source sends the
    coordinate sum as data, the broadcast completes, and the handle
    constructor gathers the metadata when the group has several ranks and
    accepts it. *)
Definition env_of (r size : Z) : DistEnv :=
  mkDistEnv 0%nat (fun _ => r) (fun _ => size) (fun _ c => sum_Z c)
    (fun _ _ => None)
    (fun _ _ pg => if 1 <? size then [AllGatherObject pg] else [])
    (fun _ _ _ => None).

Definition heap_of (l : loc) (pls : list Placement) : Heap := {[ l := pls ]}.

Definition world_of (l : loc) (pls : list Placement) : World :=
  mkWorld (heap_of l pls) [] 100%nat.

Definition sample_props : TensorProperties :=
  mkTensorProperties "float32" "strided" false "contiguous_format" false.

(** Shape [[3]] over five placements, held at location 1: more chunks
    than elements. *)
Definition five_placements : Heap :=
  heap_of 1%nat [rank_dev 0; rank_dev 1; rank_dev 2; rank_dev 3; rank_dev 0].

Definition last_dim_spec : ChunkShardingSpec :=
  mkChunkShardingSpec (DimInt (-1)) 1%nat.

(** A caller's list at location 2 that mixes strings and devices. *)
Definition mixed_placements : World :=
  world_of 2%nat [PStr "rank:0"; rank_dev 1; PStr "rank:1"].

(** One placement at location 3: the only shard is the whole tensor. *)
Definition single_placement : World := world_of 3%nat [rank_dev 0].
Definition whole_spec : ChunkShardingSpec :=
  mkChunkShardingSpec (DimInt 0) 3%nat.

(** Two placements at location 4, the second on a rank that a group of
    two does not have. *)
Definition stray_rank : World := world_of 4%nat [rank_dev 0; rank_dev 7].
Definition stray_spec : ChunkShardingSpec :=
  mkChunkShardingSpec (DimInt 0) 4%nat.

(** Four placements at location 5, one per rank of a group of four. *)
Definition four_ranks : World :=
  world_of 5%nat [rank_dev 0; rank_dev 1; rank_dev 2; rank_dev 3].
Definition rows_spec : ChunkShardingSpec :=
  mkChunkShardingSpec (DimInt 0) 5%nat.

(** The two halves of a [[4]] tensor, and two shards that both hold
    coordinate 1. *)
Definition two_halves : list ShardMetadata :=
  [mkShardMetadata [0] [2] (rank_dev 0); mkShardMetadata [2] [2] (rank_dev 1)].
Definition clashing : list ShardMetadata :=
  [mkShardMetadata [0] [2] (rank_dev 0); mkShardMetadata [1] [2] (rank_dev 1)].

(** The handle of a run, when the run returned one. *)
Definition handle_of (r : result ShardedTensor * World) : ShardedTensor :=
  match fst r with
  | Ok st => st
  | Raise _ => mkShardedTensor [] [] None None
  end.

Definition tensor_of (storage : nat) (size : list Z) (requires_grad : bool)
    (grad_fn : option string) : Tensor :=
  mkTensor storage size (fun c => sum_Z c) "float32" "strided"
    requires_grad grad_fn false.

(** ** [DevicePlacementSpec] *)

(** [DevicePlacementSpec(device)]: a placement on a single device. *)
Record DevicePlacementSpec : Type := mkDevicePlacementSpec {
  device : Placement
}.

(** [__post_init__] replaces a device that is not a [_remote_device] by
    the remote device built from it. *)
Definition DevicePlacementSpec_post_init
    (_remote_device : string → result remote_device)
    (self : DevicePlacementSpec) : result DevicePlacementSpec :=
  match device self with
  | PDev _ => Ok self
  | PStr s =>
      let! d := _remote_device s in
      Ok (mkDevicePlacementSpec (PDev d))
  end.

Definition DevicePlacementSpec_new
    (_remote_device : string → result remote_device)
    (device : Placement) : result DevicePlacementSpec :=
  DevicePlacementSpec_post_init _remote_device
    (mkDevicePlacementSpec device).

(** ** Further closed forms and sample inputs *)

(** A placements entry that [__post_init__] can turn into a device. *)
Definition parses (_remote_device : string → result remote_device)
    (p : Placement) : bool :=
  match p with
  | PDev _ => true
  | PStr s => is_ok (_remote_device s)
  end.

(** What [narrow(k, start, len).clone().detach().contiguous()] makes of
    a tensor, in the storage the clone is given. *)
Definition narrowed_copy (t : Tensor) (k : nat) (start len : Z)
    (storage : nat) : Tensor :=
  mkTensor storage (<[k := len]> (t_size t))
    (fun c => t_elems t (alter (Z.add start) k c))
    (t_dtype t) (t_layout t) false None (t_pinned t).

(** The tensor as [dist.broadcast] leaves it. *)
Definition after_broadcast (env : DistEnv) (t : Tensor) (src : Z) : Tensor :=
  mkTensor (t_storage t) (t_size t) (broadcast_payload env src)
    (t_dtype t) (t_layout t) (t_requires_grad t) (t_grad_fn t) (t_pinned t).

(** The world as the handle constructor leaves it: its collectives are
    recorded after those of the world it was called in. *)
Definition world_after_init (env : DistEnv) (local_shards : list Shard)
    (size : list Z) (pg : option ProcessGroup) (w : World) : World :=
  mkWorld (heap w)
    (collectives w ++ init_collectives env local_shards size pg)
    (next_storage w).

(** A shard is smaller than the tensor when the loop of [shard] finds a
    dimension to narrow. *)
Definition smaller_than (shard_sizes tensor_sizes : list Z) : Prop :=
  ∃ (j : nat) z n,
    shard_sizes !! j = Some z ∧ tensor_sizes !! j = Some n ∧ z < n.

(** Two shards of different ranks. *)
Definition ragged : list ShardMetadata :=
  [mkShardMetadata [0] [2] (rank_dev 0);
   mkShardMetadata [0; 0] [2; 2] (rank_dev 1)].

(** A caller's list at location 6 whose second string does not parse. *)
Definition bad_second : World :=
  world_of 6%nat [PStr "rank:0"; PStr "gpu"; PStr "rank:1"].

(** Three placements at location 8 for a dimension of size 10, and a
    stray fourth placement at location 9 for a dimension of size 3. *)
Definition three_ranks : World :=
  world_of 8%nat [rank_dev 0; rank_dev 1; rank_dev 2].
Definition thirds_spec : ChunkShardingSpec :=
  mkChunkShardingSpec (DimInt 0) 8%nat.
Definition stray_fourth : World :=
  world_of 9%nat [rank_dev 0; rank_dev 1; rank_dev 0; rank_dev 7].
Definition stray_fourth_spec : ChunkShardingSpec :=
  mkChunkShardingSpec (DimInt 0) 9%nat.

(** * Proofs *)

(** ** Arithmetic of chunk sizes *)

Section ChunkArithmetic.

(** [ceil_div a b] is the least [q] with [a <= q * b]. *)
Lemma ceil_div_bounds (a b : Z) :
  0 < b → (ceil_div a b - 1) * b < a ≤ ceil_div a b * b.
Proof.
  intros Hb. unfold ceil_div.
  pose proof (Z.div_mod (- a) b ltac:(lia)) as Hdm.
  pose proof (Z.mod_pos_bound (- a) b Hb) as Hm.
  lia.
Qed.

Lemma ceil_div_least (a b q : Z) : 0 < b → a ≤ q * b → ceil_div a b ≤ q.
Proof.
  intros Hb Hq. pose proof (ceil_div_bounds a b Hb) as [Hlo _].
  destruct (Z_le_gt_dec (ceil_div a b) q) as [|Hgt]; [done|].
  assert (q * b ≤ (ceil_div a b - 1) * b) by (apply Z.mul_le_mono_nonneg_r; lia).
  lia.
Qed.

Lemma ceil_div_nonneg (a b : Z) : 0 ≤ a → 0 < b → 0 ≤ ceil_div a b.
Proof.
  intros Ha Hb. pose proof (ceil_div_bounds a b Hb) as [_ Hhi].
  destruct (Z_le_gt_dec 0 (ceil_div a b)) as [|Hneg]; [done|].
  assert (ceil_div a b * b ≤ (-1) * b)
    by (apply Z.mul_le_mono_nonneg_r; lia).
  lia.
Qed.

Lemma ceil_div_zero_divisor (a : Z) : ceil_div a 0 = 0.
Proof. unfold ceil_div. by rewrite Z.div_0_r. Qed.

Lemma get_chunked_dim_size_nonneg (n s i : Z) :
  0 ≤ get_chunked_dim_size n s i.
Proof. unfold get_chunked_dim_size. lia. Qed.

Lemma get_chunked_dim_size_le (n s i : Z) :
  0 ≤ s → get_chunked_dim_size n s i ≤ s.
Proof. unfold get_chunked_dim_size. lia. Qed.

(** A chunk is non-empty exactly below the [ceil_div n s]-th index. *)
Lemma get_chunked_dim_size_pos (n s i : Z) :
  0 ≤ n → 0 ≤ s → 0 ≤ i →
  0 < get_chunked_dim_size n s i ↔ i < ceil_div n s.
Proof.
  intros Hn Hs Hi. unfold get_chunked_dim_size.
  destruct (Z.eq_dec s 0) as [->|Hs0].
  { rewrite ceil_div_zero_divisor. lia. }
  pose proof (ceil_div_bounds n s ltac:(lia)) as [Hlo Hhi].
  split.
  - intros Hpos. assert (i * s < n) by lia.
    destruct (Z_lt_ge_dec i (ceil_div n s)) as [|Hge]; [done|].
    assert (ceil_div n s * s ≤ i * s)
      by (apply Z.mul_le_mono_nonneg_r; lia).
    lia.
  - intros Hlt.
    assert (i * s ≤ (ceil_div n s - 1) * s)
      by (apply Z.mul_le_mono_nonneg_r; lia).
    lia.
Qed.

Lemma sum_Z_app (l1 l2 : list Z) : sum_Z (l1 ++ l2) = sum_Z l1 + sum_Z l2.
Proof. unfold sum_Z. induction l1 as [|x l1 IH]; simpl; lia. Qed.

(** The first [k] chunks of width [s] hold [min n (k * s)] elements. *)
Lemma sum_chunks_prefix (n s : Z) (k : nat) :
  0 ≤ n → 0 ≤ s →
  sum_Z (get_chunked_dim_size n s <$> seqZ 0 (Z.of_nat k))
  = Z.min n (Z.of_nat k * s).
Proof.
  intros Hn Hs. induction k as [|k IH].
  - simpl. unfold sum_Z. simpl. lia.
  - rewrite seqZ_S, fmap_app, sum_Z_app, IH.
    cbn [fmap list_fmap]. unfold sum_Z, get_chunked_dim_size.
    cbn [foldr].
    replace (Z.of_nat (S k) * s) with (Z.of_nat k * s + s) by lia.
    lia.
Qed.

End ChunkArithmetic.

(** C4. For [dimSize >= 0] and [numChunks >= 1], with [splitSize] the
    split size [ceil(dimSize / numChunks)] (the least [q] with
    [dimSize <= q * numChunks]), the chunk sizes
    [max(0, min(splitSize, dimSize - chunkIndex * splitSize))] over the
    chunk indices [0 .. numChunks - 1] add up to [dimSize], and the chunk
    size is non-negative at every index, also past the end. *)
Theorem chunk_sizes_sum_to_dim_size (dimSize numChunks : Z) :
  0 ≤ dimSize → 1 ≤ numChunks →
  ∃ splitSize,
    get_split_size dimSize numChunks = Ok splitSize
    ∧ (splitSize - 1) * numChunks < dimSize ≤ splitSize * numChunks
    ∧ sum_Z (get_chunked_dim_size dimSize splitSize <$> seqZ 0 numChunks)
      = dimSize
    ∧ ∀ chunkIndex,
        get_chunked_dim_size dimSize splitSize chunkIndex
        = Z.max 0 (Z.min splitSize (dimSize - chunkIndex * splitSize))
        ∧ 0 ≤ get_chunked_dim_size dimSize splitSize chunkIndex.
Proof.
  intros Hn Hk. exists (ceil_div dimSize numChunks).
  pose proof (ceil_div_bounds dimSize numChunks ltac:(lia)) as Hb.
  pose proof (ceil_div_nonneg dimSize numChunks Hn ltac:(lia)) as Hs.
  repeat split; try lia.
  - unfold get_split_size. destruct (Z.eqb_spec numChunks 0); [lia|done].
  - rewrite <- (Z2Nat.id numChunks) at 2 by lia.
    rewrite sum_chunks_prefix by done.
    rewrite Z2Nat.id by lia. lia.
  - apply get_chunked_dim_size_nonneg.
Qed.

Lemma chunk_sizes_sum_to_dim_size_witness :
  ∃ splitSize,
    get_split_size 10 3 = Ok splitSize
    ∧ (splitSize - 1) * 3 < 10 ≤ splitSize * 3
    ∧ sum_Z (get_chunked_dim_size 10 splitSize <$> seqZ 0 3) = 10
    ∧ ∀ chunkIndex,
        get_chunked_dim_size 10 splitSize chunkIndex
        = Z.max 0 (Z.min splitSize (10 - chunkIndex * splitSize))
        ∧ 0 ≤ get_chunked_dim_size 10 splitSize chunkIndex.
Proof. apply (chunk_sizes_sum_to_dim_size 10 3); lia. Defined.

(** ** Indexing *)

Section Indexing.

Lemma py_index_in_range (n : nat) (d : Z) :
  - Z.of_nat n ≤ d < Z.of_nat n →
  py_index n d = Some (Z.to_nat (normalize_dim d (Z.of_nat n)))
  ∧ (Z.to_nat (normalize_dim d (Z.of_nat n)) < n)%nat.
Proof.
  intros Hd. unfold py_index, normalize_dim.
  destruct (Z.ltb_spec d 0).
  - replace (0 <=? d) with false by (symmetry; apply Z.leb_gt; lia).
    replace (- Z.of_nat n <=? d) with true by (symmetry; apply Z.leb_le; lia).
    replace (d <? 0) with true by (symmetry; apply Z.ltb_lt; lia).
    simpl. split; [done|lia].
  - replace (0 <=? d) with true by (symmetry; apply Z.leb_le; lia).
    replace (d <? Z.of_nat n) with true by (symmetry; apply Z.ltb_lt; lia).
    simpl. split; [done|lia].
Qed.

Lemma py_index_Some (n : nat) (d : Z) (k : nat) :
  py_index n d = Some k → - Z.of_nat n ≤ d < Z.of_nat n.
Proof.
  unfold py_index. intros H.
  destruct (Z.leb_spec 0 d), (Z.ltb_spec d (Z.of_nat n)); simpl in H;
    try lia;
    destruct (Z.leb_spec (- Z.of_nat n) d), (Z.ltb_spec d 0); simpl in H;
    try lia; discriminate.
Qed.

Lemma py_getitem_in_range {A} (l : list A) (d : Z) :
  - Z.of_nat (length l) ≤ d < Z.of_nat (length l) →
  ∃ x, l !! Z.to_nat (normalize_dim d (Z.of_nat (length l))) = Some x
       ∧ py_getitem l d = Ok x.
Proof.
  intros Hd. destruct (py_index_in_range _ _ Hd) as [Hi Hlt].
  destruct (lookup_lt_is_Some_2 l _ Hlt) as [x Hx].
  exists x. split; [done|]. unfold py_getitem. by rewrite Hi, Hx.
Qed.

Lemma py_setitem_in_range {A} (l : list A) (d : Z) (x : A) :
  - Z.of_nat (length l) ≤ d < Z.of_nat (length l) →
  py_setitem l d x
  = Ok (<[Z.to_nat (normalize_dim d (Z.of_nat (length l))) := x]> l).
Proof.
  intros Hd. destruct (py_index_in_range _ _ Hd) as [Hi _].
  unfold py_setitem. by rewrite Hi.
Qed.

End Indexing.

(** ** [ChunkShardingSpec.build_metadata] *)

Section BuildMetadata.

Context (tensor_sizes : list Z) (d : Z).
Hypothesis d_in_range :
  - Z.of_nat (length tensor_sizes) ≤ d < Z.of_nat (length tensor_sizes).

Let k : nat := Z.to_nat (normalize_dim d (Z.of_nat (length tensor_sizes))).

(** The loop appends, to what it was given, one descriptor for each
    remaining placement whose chunk is not empty. *)
Lemma build_metadata_loop_closed (n s : Z) (rest : list Placement) :
  ∀ (idx : nat) (acc : list ShardMetadata),
    build_metadata_loop d tensor_sizes n s (Z.of_nat idx) rest acc
    = Ok (acc ++ mjoin (imap (fun i p =>
            if 0 <? get_chunked_dim_size n s (Z.of_nat (idx + i))
            then [chunk_descriptor k tensor_sizes n s (Z.of_nat (idx + i)) p]
            else []) rest)).
Proof.
  induction rest as [|p rest IH]; intros idx acc.
  - simpl. by rewrite app_nil_r.
  - cbn [build_metadata_loop imap mjoin list_join].
    replace (idx + 0)%nat with idx by lia.
    replace (Z.of_nat idx + 1) with (Z.of_nat (S idx)) by lia.
    rewrite Z.gtb_ltb.
    assert (Hext : imap ((fun i p0 =>
               if 0 <? get_chunked_dim_size n s (Z.of_nat (idx + i))
               then [chunk_descriptor k tensor_sizes n s
                       (Z.of_nat (idx + i)) p0]
               else []) ∘ S) rest
             = imap (fun i p0 =>
               if 0 <? get_chunked_dim_size n s (Z.of_nat (S idx + i))
               then [chunk_descriptor k tensor_sizes n s
                       (Z.of_nat (S idx + i)) p0]
               else []) rest).
    { apply imap_ext. intros i x _. simpl.
      by replace (idx + S i)%nat with (S (idx + i)) by lia. }
    rewrite Hext.
    destruct (0 <? get_chunked_dim_size n s (Z.of_nat idx)).
    + rewrite py_setitem_in_range by (by rewrite length_replicate).
      rewrite py_setitem_in_range by done.
      rewrite length_replicate. cbn [rbind]. rewrite IH.
      by rewrite <- app_assoc.
    + rewrite IH. done.
Qed.

(** With the dimension in range, [build_metadata] fails only for an
    empty placements list and otherwise returns the descriptors of the
    non-empty chunks. *)
Lemma build_metadata_in_range env h self props pg :
  dim self = DimInt d →
  ∃ n, tensor_sizes !! k = Some n
    ∧ build_metadata env h self tensor_sizes props pg
      = match h !!! placements self with
        | [] => Raise ZeroDivisionError
        | pls =>
            let s := ceil_div n (Z.of_nat (length pls)) in
            Ok (mkShardedTensorMetadata
                  (chunk_descriptors k tensor_sizes n s pls)
                  tensor_sizes props)
        end.
Proof.
  intros Hdim.
  destruct (py_getitem_in_range tensor_sizes d d_in_range) as (n & Hn & Hget).
  exists n. split; [done|].
  unfold build_metadata. rewrite Hdim. cbn [_verify_dim rbind].
  replace ((d >=? Z.of_nat (length tensor_sizes))
           || (d <? - Z.of_nat (length tensor_sizes))) with false.
  2:{ symmetry. apply orb_false_iff. split; [|apply Z.ltb_ge; lia].
      rewrite Z.geb_leb. apply Z.leb_gt. lia. }
  rewrite Hget. cbn [rbind]. unfold get_split_size.
  destruct (h !!! placements self) as [|p pls] eqn:Hpls.
  - done.
  - destruct (Z.eqb_spec (Z.of_nat (length (p :: pls))) 0) as [H0|_].
    { simpl in H0. lia. }
    cbn [rbind].
    rewrite (build_metadata_loop_closed n _ (p :: pls) 0%nat []).
    cbn [rbind app]. done.
Qed.

End BuildMetadata.

Section ChunkLayout.

Context (k : nat) (tensor_sizes : list Z) (n s : Z).
Hypothesis n_nonneg : 0 ≤ n.
Hypothesis s_nonneg : 0 ≤ s.

(** The non-empty chunks are the first [ceil_div n s] ones, so the
    descriptors are those of a prefix of the placements. *)
Lemma chunk_descriptors_prefix (pls : list Placement) :
  chunk_descriptors k tensor_sizes n s pls
  = imap (fun i p => chunk_descriptor k tensor_sizes n s (Z.of_nat i) p)
      (take (Z.to_nat (ceil_div n s)) pls).
Proof.
  unfold chunk_descriptors.
  induction pls as [|x pls IH] using rev_ind; [by rewrite take_nil|].
  rewrite imap_app, join_app, IH. cbn [imap mjoin list_join].
  rewrite app_nil_r, Nat.add_0_r.
  destruct (Z.ltb_spec 0
    (get_chunked_dim_size n s (Z.of_nat (length pls)))) as [Hpos|Hzero].
  - apply get_chunked_dim_size_pos in Hpos; [|lia..].
    rewrite !take_ge by (rewrite ?length_app; simpl; lia).
    rewrite imap_app. cbn [imap]. by rewrite Nat.add_0_r.
  - assert (¬ Z.of_nat (length pls) < ceil_div n s) as Hge.
    { intros Hlt. apply get_chunked_dim_size_pos in Hlt; lia. }
    rewrite take_app_le by lia. by rewrite app_nil_r.
Qed.

Lemma chunk_descriptors_length (pls : list Placement) :
  Z.of_nat (length (chunk_descriptors k tensor_sizes n s pls))
  = Z.min (Z.of_nat (length pls)) (ceil_div n s).
Proof.
  rewrite chunk_descriptors_prefix, length_imap, length_take.
  destruct (Z.eq_dec s 0) as [->|Hs].
  - rewrite ceil_div_zero_divisor. simpl. lia.
  - pose proof (ceil_div_nonneg n s n_nonneg ltac:(lia)). lia.
Qed.

Lemma chunk_descriptors_lookup (pls : list Placement) (i : nat) sm :
  (k < length tensor_sizes)%nat →
  chunk_descriptors k tensor_sizes n s pls !! i = Some sm →
  shard_offsets sm !! k = Some (s * Z.of_nat i)
  ∧ shard_sizes sm !! k
    = Some (get_chunked_dim_size n s (Z.of_nat i)).
Proof.
  intros Hk. rewrite chunk_descriptors_prefix, list_lookup_imap.
  destruct (take _ pls !! i) as [p|]; [|done].
  intros [= <-]. unfold chunk_descriptor. cbn [shard_offsets shard_sizes].
  rewrite !list_lookup_insert_eq by (rewrite ?length_replicate; lia).
  done.
Qed.

(** Descriptors at different positions cover disjoint ranges of
    dimension [k]. *)
Lemma chunk_descriptors_disjoint (pls : list Placement) (i j : nat) s1 s2 :
  (k < length tensor_sizes)%nat →
  i ≠ j →
  chunk_descriptors k tensor_sizes n s pls !! i = Some s1 →
  chunk_descriptors k tensor_sizes n s pls !! j = Some s2 →
  ∃ o1 z1 o2 z2,
    shard_offsets s1 !! k = Some o1 ∧ shard_sizes s1 !! k = Some z1
    ∧ shard_offsets s2 !! k = Some o2 ∧ shard_sizes s2 !! k = Some z2
    ∧ ranges_disjoint o1 z1 o2 z2.
Proof.
  intros Hk Hij H1 H2.
  destruct (chunk_descriptors_lookup _ _ _ Hk H1) as [Ho1 Hz1].
  destruct (chunk_descriptors_lookup _ _ _ Hk H2) as [Ho2 Hz2].
  eexists _, _, _, _. repeat split; try eassumption.
  pose proof (get_chunked_dim_size_le n s (Z.of_nat i) s_nonneg).
  pose proof (get_chunked_dim_size_le n s (Z.of_nat j) s_nonneg).
  unfold ranges_disjoint.
  destruct (Nat.lt_total i j) as [Hlt|[?|Hlt]]; [left|done|right].
  - assert (s * (Z.of_nat i + 1) ≤ s * Z.of_nat j)
      by (apply Z.mul_le_mono_nonneg_l; lia). lia.
  - assert (s * (Z.of_nat j + 1) ≤ s * Z.of_nat i)
      by (apply Z.mul_le_mono_nonneg_l; lia). lia.
Qed.

End ChunkLayout.

(** C2. With the sharding dimension in range for the global shape,
    [build_metadata] walks the placements in list order and emits, for each
    index [i] whose chunk size is positive, exactly one descriptor with
    offsets all zero except [splitSize * i] at the sharding dimension and
    sizes those of the global shape except the chunk size at the sharding
    dimension; an index whose chunk size is 0 emits nothing. The only
    failure left is the empty placements list, for which the split size
    has no value. *)
Theorem build_metadata_emits_chunk_descriptors
    env h self tensor_sizes props pg d :
  dim self = DimInt d →
  - Z.of_nat (length tensor_sizes) ≤ d < Z.of_nat (length tensor_sizes) →
  let k := Z.to_nat (normalize_dim d (Z.of_nat (length tensor_sizes))) in
  let pls := h !!! placements self in
  match build_metadata env h self tensor_sizes props pg with
  | Ok md =>
      ∃ dimSize splitSize,
        tensor_sizes !! k = Some dimSize
        ∧ get_split_size dimSize (Z.of_nat (length pls)) = Ok splitSize
        ∧ shards_metadata md
          = mjoin (imap (fun i placement =>
              let chunkSize :=
                get_chunked_dim_size dimSize splitSize (Z.of_nat i) in
              if 0 <? chunkSize then
                [mkShardMetadata
                   (<[k := splitSize * Z.of_nat i]>
                      (replicate (length tensor_sizes) 0))
                   (<[k := chunkSize]> tensor_sizes)
                   placement]
              else []) pls)
  | Raise e => pls = [] ∧ e = ZeroDivisionError
  end.
Proof.
  intros Hdim Hd k pls.
  destruct (build_metadata_in_range tensor_sizes d Hd env h self props pg Hdim)
    as (n & Hn & ->).
  fold k. fold pls. destruct pls as [|p pls'] eqn:Hpls; [done|].
  exists n, (ceil_div n (Z.of_nat (length (p :: pls')))).
  split; [done|]. split; [|done].
  unfold get_split_size.
  destruct (Z.eqb_spec (Z.of_nat (length (p :: pls'))) 0) as [H0|_]; [|done].
  simpl in H0. lia.
Qed.

Lemma build_metadata_emits_chunk_descriptors_witness :
  match build_metadata (env_of 0 4) five_placements last_dim_spec [3]
          sample_props None with
  | Ok md =>
      shards_metadata md
      = [mkShardMetadata [0] [1] (rank_dev 0);
         mkShardMetadata [1] [1] (rank_dev 1);
         mkShardMetadata [2] [1] (rank_dev 2)]
  | Raise _ => False
  end.
Proof.
  pose proof (build_metadata_emits_chunk_descriptors (env_of 0 4)
    five_placements last_dim_spec [3] sample_props None (-1)
    eq_refl ltac:(simpl; lia)) as H.
  cbv zeta in H.
  destruct (build_metadata _ _ _ _ _ _) as [md|e].
  - destruct H as (n & s & Hn & Hs & ->).
    injection Hn as <-. vm_compute in Hs. injection Hs as <-.
    vm_compute. reflexivity.
  - destruct H as [H _]. vm_compute in H. discriminate H.
Defined.

(** C3. For a spec with [k] placements sharding a dimension of size [N],
    [build_metadata] emits [min(k, ceil(N / ceil(N / k)))] descriptors, and
    the ranges [[offset, offset + size)] of any two emitted descriptors on
    the sharded dimension are disjoint. With at least one placement the
    metadata is built. For [N = 0] the split size is 0 and the outer
    quotient is taken as 0. *)
Theorem build_metadata_count_and_disjoint
    env h self tensor_sizes props pg d N :
  dim self = DimInt d →
  - Z.of_nat (length tensor_sizes) ≤ d < Z.of_nat (length tensor_sizes) →
  let dimIndex := Z.to_nat (normalize_dim d (Z.of_nat (length tensor_sizes))) in
  let k := Z.of_nat (length (h !!! placements self)) in
  tensor_sizes !! dimIndex = Some N →
  0 ≤ N →
  (1 ≤ k → is_ok (build_metadata env h self tensor_sizes props pg) = true)
  ∧ ∀ md,
      build_metadata env h self tensor_sizes props pg = Ok md →
      Z.of_nat (length (shards_metadata md))
      = Z.min k (ceil_div N (ceil_div N k))
      ∧ ∀ (i j : nat) s1 s2,
          i ≠ j →
          shards_metadata md !! i = Some s1 →
          shards_metadata md !! j = Some s2 →
          ∃ o1 z1 o2 z2,
            shard_offsets s1 !! dimIndex = Some o1
            ∧ shard_sizes s1 !! dimIndex = Some z1
            ∧ shard_offsets s2 !! dimIndex = Some o2
            ∧ shard_sizes s2 !! dimIndex = Some z2
            ∧ ranges_disjoint o1 z1 o2 z2.
Proof.
  intros Hdim Hd dimIndex k HN Hnonneg.
  destruct (build_metadata_in_range tensor_sizes d Hd env h self props pg Hdim)
    as (n & Hn & Hbuild).
  fold dimIndex in Hn. rewrite HN in Hn. injection Hn as <-.
  rewrite Hbuild. subst k.
  destruct (h !!! placements self) as [|p pls]; simpl length.
  { split; [lia|]. intros md [=]. }
  split; [done|]. intros md [= <-]. cbn [shards_metadata].
  set (k := Z.of_nat (S (length pls))).
  assert (0 ≤ ceil_div N k) as Hs by (apply ceil_div_nonneg; lia).
  assert (dimIndex < length tensor_sizes)%nat as Hk
    by (by apply lookup_lt_Some in HN).
  split.
  - by rewrite chunk_descriptors_length.
  - intros i j s1 s2. by apply chunk_descriptors_disjoint.
Qed.

Lemma build_metadata_count_and_disjoint_witness :
  ∃ md,
    build_metadata (env_of 0 4) five_placements last_dim_spec [3]
      sample_props None = Ok md
    ∧ Z.of_nat (length (shards_metadata md))
      = Z.min 5 (ceil_div 3 (ceil_div 3 5)).
Proof.
  pose proof (build_metadata_count_and_disjoint (env_of 0 4) five_placements
    last_dim_spec [3] sample_props None (-1) 3
    eq_refl ltac:(simpl; lia) eq_refl ltac:(lia)) as [Hok Hcount].
  destruct (build_metadata _ _ _ _ _ _) as [md|e].
  - exists md. split; [reflexivity|]. apply (Hcount md eq_refl).
  - discriminate Hok. vm_compute. discriminate.
Defined.

Section Construction.

Context (_remote_device : string → result remote_device).

(** A spec that was constructed holds the arguments it was given, and
    its dimension is an integer. *)
Lemma ChunkShardingSpec_new_Ok dim0 l w0 w1 self :
  ChunkShardingSpec_new _remote_device dim0 l w0 = (Ok self, w1) →
  self = mkChunkShardingSpec dim0 l ∧ ∃ d, dim0 = DimInt d.
Proof.
  unfold ChunkShardingSpec_new, ChunkShardingSpec_post_init, mbind', lift,
    read_heap, mret. cbn [dim placements].
  destruct dim0 as [d|name|]; cbn [_verify_dim]; try discriminate.
  destruct (post_init_loop _ _ _ _ _) as [[[]|e] w]; [|discriminate].
  intros [= <- <-]. eauto.
Qed.

End Construction.

Lemma normalize_dim_in_range (d n : Z) :
  0 ≤ n → (0 ≤ normalize_dim d n < n ↔ - n ≤ d < n).
Proof. intros Hn. unfold normalize_dim. destruct (Z.ltb_spec d 0); lia. Qed.

(** C9. On a constructed [ChunkShardingSpec], [build_metadata] checks the
    sharding dimension against the rank of the shape it is given, and
    raises [ValueError] exactly when the dimension does not resolve, after
    negative-index normalization, to a value in [[0, tensorRank)],
    whatever shape the dimension suited before. *)
Theorem build_metadata_revalidates_dim
    _remote_device dim0 l w0 w1 self :
  ChunkShardingSpec_new _remote_device dim0 l w0 = (Ok self, w1) →
  ∃ d, dim self = DimInt d
    ∧ ∀ env h tensor_sizes props pg,
        let tensorRank := Z.of_nat (length tensor_sizes) in
        (∃ why, build_metadata env h self tensor_sizes props pg
                = Raise (ValueError why))
        ↔ ¬ (0 ≤ normalize_dim d tensorRank < tensorRank).
Proof.
  intros Hnew.
  destruct (ChunkShardingSpec_new_Ok _ _ _ _ _ _ Hnew) as (-> & d & ->).
  exists d. split; [done|]. intros env h tensor_sizes props pg tensorRank.
  rewrite normalize_dim_in_range by lia. subst tensorRank.
  destruct (decide (- Z.of_nat (length tensor_sizes) ≤ d
                    < Z.of_nat (length tensor_sizes))) as [Hin|Hout].
  - destruct (build_metadata_in_range tensor_sizes d Hin env h
                (mkChunkShardingSpec (DimInt d) l) props pg eq_refl)
      as (n & _ & ->).
    split; [|done]. intros [why Hwhy].
    by destruct (h !!! placements _).
  - split; [done|]. intros _. exists (InvalidShardingDim d).
    unfold build_metadata. cbn [dim _verify_dim rbind].
    replace ((d >=? Z.of_nat (length tensor_sizes))
             || (d <? - Z.of_nat (length tensor_sizes))) with true; [done|].
    symmetry. apply orb_true_iff. rewrite Z.geb_leb, Z.leb_le, Z.ltb_lt. lia.
Qed.

Lemma build_metadata_revalidates_dim_witness :
  ∃ d, dim (mkChunkShardingSpec (DimInt 1) 2%nat) = DimInt d
    ∧ ∀ env h tensor_sizes props pg,
        let tensorRank := Z.of_nat (length tensor_sizes) in
        (∃ why, build_metadata env h (mkChunkShardingSpec (DimInt 1) 2%nat)
                  tensor_sizes props pg
                = Raise (ValueError why))
        ↔ ¬ (0 ≤ normalize_dim d tensorRank < tensorRank).
Proof.
  apply (build_metadata_revalidates_dim two_ranks (DimInt 1) 2%nat
           mixed_placements
           (snd (ChunkShardingSpec_new two_ranks (DimInt 1) 2%nat
                   mixed_placements))).
  vm_compute. reflexivity.
Defined.

(** ** [ChunkShardingSpec.__post_init__] and the caller's list *)

Section PostInit.

Context (_remote_device : string → result remote_device) (l : loc).

(** The loop, started at index [length done] of a list [done ++ rest],
    rewrites [rest] in place and touches nothing else. *)
Lemma post_init_loop_Ok (rest : list Placement) :
  ∀ (visited : list Placement) (w w' : World),
    heap w !!! l = visited ++ rest →
    post_init_loop _remote_device l (length visited) rest w = (Ok tt, w') →
    ∃ rest',
      heap w' !!! l = visited ++ rest'
      ∧ Forall2 (parsed_as _remote_device) rest rest'
      ∧ (∀ l', l' ≠ l → heap w' !! l' = heap w !! l')
      ∧ collectives w' = collectives w
      ∧ next_storage w' = next_storage w.
Proof.
  induction rest as [|p rest IH]; intros visited w w' Hl Hrun.
  - injection Hrun as <-. exists []. by repeat split.
  - destruct p as [s|d]; cbn [post_init_loop] in Hrun.
    + destruct (_remote_device s) as [d|e] eqn:Hs; [|discriminate].
      replace (S (length visited)) with (length (visited ++ [PDev d]))
        in Hrun by (rewrite length_app; simpl; lia).
      apply IH in Hrun as (rest' & Hl' & Hrest & Hother & Hc & Hn).
      * exists (PDev d :: rest'). cbn [heap collectives next_storage] in *.
        rewrite <- app_assoc in Hl'. repeat split; try done.
        -- constructor; [|done]. simpl. eauto.
        -- intros l' Hne. rewrite Hother by done.
           by rewrite lookup_insert_ne.
      * cbn [heap]. rewrite lookup_total_insert_eq, Hl.
        rewrite insert_app_r_alt by lia.
        rewrite Nat.sub_diag. simpl. by rewrite <- app_assoc.
    + replace (S (length visited)) with (length (visited ++ [PDev d]))
        in Hrun by (rewrite length_app; simpl; lia).
      apply IH in Hrun as (rest' & Hl' & Hrest & Hother & Hc & Hn).
      * exists (PDev d :: rest'). rewrite <- app_assoc in Hl'.
        repeat split; try done. by constructor.
      * by rewrite <- app_assoc.
Qed.

Lemma parsed_as_is_remote_device (before after : Placement) :
  parsed_as _remote_device before after → is_remote_device after = true.
Proof. destruct before; [intros (d & _ & ->)|intros ->]; done. Qed.

End PostInit.

(** C10. Constructing a [ChunkShardingSpec] rewrites the caller's
    placements list in place: the spec holds the very list it was given,
    and after construction that list has, at every index that held a
    string, the remote device the string parses to, the devices it
    already held unchanged, and so no string left; nothing else in the
    world changes. *)
Theorem ChunkShardingSpec_new_mutates_placements
    _remote_device dim0 l w0 w1 self :
  ChunkShardingSpec_new _remote_device dim0 l w0 = (Ok self, w1) →
  placements self = l
  ∧ Forall2 (parsed_as _remote_device) (heap w0 !!! l) (heap w1 !!! l)
  ∧ Forall (fun p => is_remote_device p = true) (heap w1 !!! l)
  ∧ (∀ l', l' ≠ l → heap w1 !! l' = heap w0 !! l')
  ∧ collectives w1 = collectives w0
  ∧ next_storage w1 = next_storage w0.
Proof.
  intros Hnew.
  destruct (ChunkShardingSpec_new_Ok _ _ _ _ _ _ Hnew) as (-> & d & ->).
  split; [done|].
  unfold ChunkShardingSpec_new, ChunkShardingSpec_post_init, mbind', lift,
    read_heap, mret in Hnew. cbn [dim placements _verify_dim] in Hnew.
  destruct (post_init_loop _ _ _ _ _) as [[[]|e] w] eqn:Hloop;
    [|discriminate].
  injection Hnew as <-.
  apply (post_init_loop_Ok _ _ _ []) in Hloop as (rest' & Hl & Hrest & Hrem);
    [|done].
  simpl in Hl. rewrite Hl. split; [done|]. split; [|done].
  clear -Hrest. induction Hrest; constructor; eauto using parsed_as_is_remote_device.
Qed.

Lemma ChunkShardingSpec_new_mutates_placements_witness :
  heap mixed_placements !!! 2%nat
  = [PStr "rank:0"; rank_dev 1; PStr "rank:1"]
  ∧ heap (snd (ChunkShardingSpec_new two_ranks (DimInt 0) 2%nat
                 mixed_placements)) !!! 2%nat
    = [rank_dev 0; rank_dev 1; rank_dev 1]
  ∧ Forall (fun p => is_remote_device p = true)
      (heap (snd (ChunkShardingSpec_new two_ranks (DimInt 0) 2%nat
                    mixed_placements)) !!! 2%nat).
Proof.
  split; [vm_compute; reflexivity|]. split; [vm_compute; reflexivity|].
  apply (ChunkShardingSpec_new_mutates_placements two_ranks (DimInt 0) 2%nat
           mixed_placements
           (snd (ChunkShardingSpec_new two_ranks (DimInt 0) 2%nat
                   mixed_placements))
           (mkChunkShardingSpec (DimInt 0) 2%nat)).
  vm_compute. reflexivity.
Defined.

(** ** [ChunkShardingSpec.shard] *)

Section Shard.

Context (_remote_device : string → result remote_device).

(** The narrowing loop returns either the tensor it was given, having
    allocated nothing, or a detached leaf in a storage allocated during
    the loop. It issues no collective and leaves the heap alone. *)
Lemma narrow_loop_result tensor offs szs (rest : list (Z * Z)) :
  ∀ idx local w r w',
    narrow_loop tensor offs szs idx rest local w = (r, w') →
    heap w' = heap w ∧ collectives w' = collectives w
    ∧ (next_storage w ≤ next_storage w')%nat
    ∧ ∀ t, r = Ok t →
        (t = local ∧ next_storage w' = next_storage w)
        ∨ ((next_storage w ≤ t_storage t < next_storage w')%nat
           ∧ t_grad_fn t = None ∧ t_requires_grad t = false).
Proof.
  induction rest as [|[offset size] rest IH]; intros idx local w r w' Hrun.
  - injection Hrun as <- <-. repeat split; eauto. intros t [= <-]. by left.
  - cbn [narrow_loop] in Hrun. unfold mbind', lift in Hrun.
    destruct (tensor_size_at tensor idx) as [n|e];
      [|injection Hrun as <- <-; by repeat split].
    destruct (size <? n).
    + destruct (py_getitem offs idx) as [start|e];
        [|injection Hrun as <- <-; by repeat split].
      destruct (py_getitem szs idx) as [len|e];
        [|injection Hrun as <- <-; by repeat split].
      destruct (narrow local idx start len) as [narrowed|e];
        [|injection Hrun as <- <-; by repeat split].
      unfold clone in Hrun.
      apply IH in Hrun as (Hh & Hc & Hn & Ht).
      cbn [heap collectives next_storage] in *.
      repeat split; [done|done|lia|].
      intros t Hr. destruct (Ht t Hr) as [[-> Hsame]|(Hfresh & Hleaf)].
      * right. unfold contiguous, detach. cbn [t_storage t_grad_fn
          t_requires_grad]. split; [lia|done].
      * right. split; [lia|done].
    + by apply IH in Hrun.
Qed.

(** The loop over the metadata keeps, in order, the shards whose
    placement resolves to the caller's rank, and no other. *)
Lemma shard_loop_keeps_own env pg current_rank tensor
    (rest : list ShardMetadata) :
  ∀ acc w local_shards w',
    shard_loop _remote_device env pg current_rank tensor rest acc w
    = (Ok local_shards, w') →
    sh_metadata <$> local_shards
    = (sh_metadata <$> acc)
      ++ List.filter (assigned_to _remote_device env pg current_rank) rest
    ∧ Forall (fun s => is_Some (resolved_rank _remote_device env pg s)) rest.
Proof.
  induction rest as [|shard_meta rest IH]; intros acc w local_shards w' Hrun.
  - injection Hrun as <- <-. simpl. by rewrite app_nil_r.
  - cbn [shard_loop] in Hrun. unfold mbind' at 1, lift at 1 in Hrun.
    destruct (_parse_and_validate_remote_device _ _ _ _)
      as [[rank dev]|e] eqn:Hparse; [|discriminate].
    assert (resolved_rank _remote_device env pg shard_meta = Some rank)
      as Hres by (unfold resolved_rank; by rewrite Hparse).
    cbn [List.filter]. unfold assigned_to at 1. rewrite Hres.
    cbn [fst] in Hrun. destruct (rank =? current_rank).
    + unfold mbind' in Hrun.
      destruct (narrow_loop _ _ _ _ _ _ _) as [[local|e] w1];
        [|discriminate].
      unfold lift in Hrun.
      destruct (set_requires_grad _ _) as [local'|e]; [|discriminate].
      apply IH in Hrun as [Hrun Hall].
      split; [|constructor; [by rewrite Hres|done]].
      rewrite Hrun, fmap_app. cbn [fmap list_fmap sh_metadata].
      by rewrite <- app_assoc.
    + apply IH in Hrun as [Hrun Hall].
      split; [done|constructor; [by rewrite Hres|done]].
Qed.

(** The descriptors depend on the spec, its placements and the shape
    only. *)
Lemma build_metadata_shards_indep env env' h h' self tensor_sizes
    props props' pg pg' :
  h' !!! placements self = h !!! placements self →
  build_metadata env' h' self tensor_sizes props' pg'
  = let! md := build_metadata env h self tensor_sizes props pg in
    Ok (mkShardedTensorMetadata (shards_metadata md) tensor_sizes props').
Proof.
  intros Hh. unfold build_metadata. rewrite Hh.
  destruct (_verify_dim (dim self)); [|done]. cbn [rbind].
  destruct (dim self); try done.
  destruct (_ || _); [done|].
  destruct (py_getitem tensor_sizes d); [|done]. cbn [rbind].
  destruct (get_split_size _ _); [|done]. cbn [rbind].
  by destruct (build_metadata_loop _ _ _ _ _ _ _).
Qed.

Lemma assigned_to_same_group env env' pg r s :
  get_world_size env' pg = get_world_size env pg →
  assigned_to _remote_device env' pg r s
  = assigned_to _remote_device env pg r s.
Proof.
  intros Hsize.
  unfold assigned_to, resolved_rank, _parse_and_validate_remote_device.
  by rewrite Hsize.
Qed.

(** What a completed [shard] has done. *)
Lemma shard_Ok env self tensor src pg w handle w' :
  shard _remote_device env self tensor src pg w = (Ok handle, w') →
  ∃ md,
    build_metadata env (heap w) self (t_size tensor)
      (mkTensorProperties (t_dtype tensor) (t_layout tensor)
         (t_requires_grad tensor) "contiguous_format" (t_pinned tensor))
      pg = Ok md
    ∧ sh_metadata <$> st_local_shards handle
      = List.filter
          (assigned_to _remote_device env pg (get_rank env pg))
          (shards_metadata md)
    ∧ Forall (fun s => is_Some (resolved_rank _remote_device env pg s))
        (shards_metadata md).
Proof.
  unfold shard, mbind', read_heap, lift, broadcast,
    _init_from_local_shards, mret. intros Hrun.
  destruct (build_metadata _ _ _ _ _ _) as [md|e]; [|discriminate].
  exists md. split; [done|].
  destruct (broadcast_failure env src pg); [discriminate|].
  destruct (shard_loop _ _ _ _ _ _ _ _) as [[ls|e] w1] eqn:Hloop;
    [|discriminate].
  destruct (init_failure env ls _ pg); [discriminate|].
  injection Hrun as <- <-. cbn [st_local_shards].
  by apply shard_loop_keeps_own in Hloop.
Qed.

End Shard.

(** C6, as the code has it. Every error of metadata building (the type
    and the range of the sharding dimension, the split size) is raised
    before the broadcast: when [build_metadata] fails on the tensor's
    shape, [shard] raises the same error in an unchanged world, with no
    collective issued and no storage allocated. Placements are validated
    against the group later, shard by shard, after the broadcast. *)
Theorem shard_raises_before_broadcast
    _remote_device env self tensor src pg w e :
  build_metadata env (heap w) self (t_size tensor)
    (mkTensorProperties (t_dtype tensor) (t_layout tensor)
       (t_requires_grad tensor) "contiguous_format" (t_pinned tensor))
    pg = Raise e →
  shard _remote_device env self tensor src pg w = (Raise e, w).
Proof.
  intros Hbuild. unfold shard, mbind', read_heap, lift.
  by rewrite Hbuild.
Qed.

Lemma shard_raises_before_broadcast_witness :
  shard no_strings (env_of 1 4)
    (mkChunkShardingSpec (DimInt 2) 5%nat)
    (tensor_of 7 [8; 4] false None) 0 None four_ranks
  = (Raise (ValueError (InvalidShardingDim 2)), four_ranks).
Proof.
  apply (shard_raises_before_broadcast no_strings (env_of 1 4)
           (mkChunkShardingSpec (DimInt 2) 5%nat)
           (tensor_of 7 [8; 4] false None) 0 None four_ranks).
  vm_compute. reflexivity.
Defined.

(** C6 as stated fails: a placement on a rank outside the group is
    rejected with [ValueError] only after the broadcast was issued and the
    first local shard was cloned. *)
Lemma shard_validation_error_after_broadcast :
  shard no_strings (env_of 0 2) stray_spec (tensor_of 7 [4] false None)
    0 None stray_rank
  = (Raise (ValueError (InvalidRank 7)),
     mkWorld (heap stray_rank) [Broadcast 7 0 None] 101).
Proof. vm_compute. reflexivity. Qed.

Section WholeTensor.

Context (_remote_device : string → result remote_device).

(** Where no remaining dimension of the shard is smaller than the
    tensor's, the narrowing loop returns the tensor it was given and
    allocates nothing. *)
Lemma narrow_loop_same_size tensor offs szs (rest_z : list Z) :
  ∀ (seen rest_o : list Z) local w,
    t_size tensor = seen ++ rest_z →
    narrow_loop tensor offs szs (Z.of_nat (length seen)) (zip rest_o rest_z)
      local w
    = (Ok local, w).
Proof.
  induction rest_z as [|z rest_z IH]; intros seen rest_o local w Hsize.
  - by destruct rest_o.
  - destruct rest_o as [|o rest_o]; [done|].
    cbn [zip zip_with narrow_loop]. unfold mbind' at 1, lift at 1.
    assert (tensor_size_at tensor (Z.of_nat (length seen)) = Ok z) as ->.
    { unfold tensor_size_at, py_getitem, py_index. rewrite Hsize.
      rewrite length_app. cbn [length].
      replace (0 <=? Z.of_nat (length seen)) with true
        by (symmetry; apply Z.leb_le; lia).
      replace (Z.of_nat (length seen)
               <? Z.of_nat (length seen + S (length rest_z))) with true
        by (symmetry; apply Z.ltb_lt; lia).
      cbn [andb]. rewrite Nat2Z.id.
      by rewrite lookup_app_r, Nat.sub_diag by lia. }
    rewrite Z.ltb_irrefl.
    replace (Z.of_nat (length seen) + 1)
      with (Z.of_nat (length (seen ++ [z])))
      by (rewrite length_app; simpl; lia).
    apply IH. by rewrite <- app_assoc.
Qed.

Lemma ceil_div_one (a : Z) : ceil_div a 1 = a.
Proof. unfold ceil_div. rewrite Z.div_1_r. lia. Qed.

(** A single shard of the tensor's own size, placed on the caller's
    rank: the local tensor is the tensor the loop was given, with its
    gradient flag written back onto it, which a leaf accepts. *)
Lemma shard_loop_whole_tensor env pg tensor offs p dev w :
  _parse_and_validate_remote_device _remote_device env pg p
  = Ok (get_rank env pg, dev) →
  is_leaf tensor = true →
  ∃ local,
    shard_loop _remote_device env pg (get_rank env pg) tensor
      [mkShardMetadata offs (t_size tensor) p] [] w
    = (Ok [mkShard local (mkShardMetadata offs (t_size tensor) p)], w)
    ∧ t_storage local = t_storage tensor
    ∧ t_grad_fn local = t_grad_fn tensor
    ∧ t_requires_grad local = t_requires_grad tensor.
Proof.
  intros Hparse Hflag. cbn [shard_loop]. unfold mbind', lift.
  cbn [placement]. rewrite Hparse. cbn [fst shard_offsets shard_sizes].
  rewrite Z.eqb_refl.
  pose proof (narrow_loop_same_size tensor offs (t_size tensor)
                (t_size tensor) [] offs tensor w eq_refl) as Hsame.
  change (Z.of_nat (length (@nil Z))) with 0 in Hsame. rewrite Hsame.
  unfold set_requires_grad. rewrite Hflag. cbn [negb].
  unfold mret. eexists. split; [reflexivity|]. done.
Qed.

End WholeTensor.

(** C5 at a shard that covers the whole tensor. Take a leaf tensor, a
    single placement that resolves to the caller's rank and a non-empty
    sharded dimension, and let the broadcast complete and the handle
    constructor accept what it is given. The only shard has the sizes of
    the tensor, no dimension is narrower than the tensor, and the loop
    clones nothing: the call completes, no storage is allocated, and the
    local tensor of the handle is the broadcast tensor itself, sharing
    its storage, where C5 asks for an independent copy. *)
Theorem shard_whole_tensor_is_not_copied
    _remote_device env self tensor src pg w d p dev N :
  dim self = DimInt d →
  - Z.of_nat (length (t_size tensor)) ≤ d < Z.of_nat (length (t_size tensor)) →
  t_size tensor
    !! Z.to_nat (normalize_dim d (Z.of_nat (length (t_size tensor))))
  = Some N →
  0 < N →
  heap w !!! placements self = [p] →
  _parse_and_validate_remote_device _remote_device env pg p
  = Ok (get_rank env pg, dev) →
  is_leaf tensor = true →
  broadcast_failure env src pg = None →
  (∀ local_shards, init_failure env local_shards (t_size tensor) pg = None) →
  ∃ handle w' s,
    shard _remote_device env self tensor src pg w = (Ok handle, w')
    ∧ st_local_shards handle = [s]
    ∧ shard_sizes (sh_metadata s) = t_size tensor
    ∧ shares_storage (sh_tensor s) tensor = true
    ∧ is_leaf (sh_tensor s) = true
    ∧ t_requires_grad (sh_tensor s) = t_requires_grad tensor
    ∧ next_storage w' = next_storage w.
Proof.
  intros Hdim Hd HN Hpos Hpls Hparse Hflag Hsent Haccepts.
  unfold shard, mbind', read_heap, lift, broadcast,
    _init_from_local_shards, mret. rewrite Hsent.
  match goal with
  | |- context [build_metadata env (heap w) self (t_size tensor) ?props pg] =>
      destruct (build_metadata_in_range (t_size tensor) d Hd env (heap w)
                  self props pg Hdim) as (n & Hn & ->)
  end.
  rewrite HN in Hn. injection Hn as <-. rewrite Hpls.
  cbn [length]. change (Z.of_nat 1) with 1. rewrite ceil_div_one.
  unfold chunk_descriptors. cbn [imap mjoin list_join].
  change (Z.of_nat 0) with 0. rewrite app_nil_r. unfold chunk_descriptor.
  assert (get_chunked_dim_size N N 0 = N) as ->
    by (unfold get_chunked_dim_size; lia).
  replace (0 <? N) with true by (symmetry; apply Z.ltb_lt; lia).
  rewrite Z.mul_0_r, (list_insert_id (t_size tensor) _ N HN).
  cbn [shards_metadata].
  match goal with
  | |- context [shard_loop _ _ _ _ ?t [mkShardMetadata ?o _ _] [] ?w0] =>
      destruct (shard_loop_whole_tensor _remote_device env pg t o p dev w0
                  Hparse Hflag)
        as (local & Hloop & Hstorage & Hgrad & Hrg)
  end.
  cbn [t_size] in Hloop. rewrite Hloop. rewrite Haccepts.
  eexists _, _, _. split; [reflexivity|]. split; [reflexivity|].
  cbn [sh_metadata sh_tensor shard_sizes next_storage].
  unfold shares_storage. unfold is_leaf in Hflag |- *.
  rewrite Hstorage, Hgrad, Hrg.
  cbn [t_storage t_grad_fn t_requires_grad]. by rewrite Nat.eqb_refl.
Qed.

Lemma shard_whole_tensor_is_not_copied_witness :
  ∃ handle w' s,
    shard no_strings (env_of 0 1) whole_spec
      (tensor_of 7 [2; 3] true None) 0 None single_placement
    = (Ok handle, w')
    ∧ st_local_shards handle = [s]
    ∧ shard_sizes (sh_metadata s) = [2; 3]
    ∧ shares_storage (sh_tensor s) (tensor_of 7 [2; 3] true None) = true
    ∧ is_leaf (sh_tensor s) = true
    ∧ t_requires_grad (sh_tensor s) = true
    ∧ next_storage w' = 100%nat.
Proof.
  apply (shard_whole_tensor_is_not_copied no_strings (env_of 0 1) whole_spec
           (tensor_of 7 [2; 3] true None) 0 None
           single_placement 0 (rank_dev 0) None 2);
    [reflexivity|simpl; lia|reflexivity|lia|reflexivity|reflexivity
    |reflexivity|reflexivity|intros; reflexivity].
Defined.

(** C8. [EnumerableShardingSpec.shard] raises [NotImplementedError] for
    every spec, tensor, source rank and process group, and the world after
    the call is the world before it: no metadata built, no collective
    issued, nothing modified. *)
Theorem Enumerable_shard_not_implemented self tensor src_rank process_group w :
  Enumerable_shard self tensor src_rank process_group w
  = (Raise (NotImplementedError ShardNotImplemented), w).
Proof. reflexivity. Qed.

(** ** [EnumerableShardingSpec] *)

Section Enumerable.

Implicit Types (s : ShardMetadata) (l : list ShardMetadata).

Let rank_of s : Z := Z.of_nat (length (shard_offsets s)).

(** The rank loop fails with the inconsistent-rank error only. *)
Lemma rank_loop_Raise l : ∀ rank e,
  rank_loop rank l = Raise e →
  ∃ r1 r2, e = ValueError (InconsistentRanks r1 r2) ∧ r1 ≠ r2.
Proof.
  induction l as [|s l IH]; intros rank e; [done|].
  cbn [rank_loop]. destruct (Z.eqb_spec rank (-1)); cbn [negb andb]; eauto.
  destruct (Z.eqb_spec rank (Z.of_nat (length (shard_offsets s))));
    cbn [negb]; eauto.
  intros [= <-]. eauto.
Qed.

(** When the rank loop passes, all shards have the rank of the first. *)
Lemma rank_loop_Ok l : ∀ rank,
  rank_loop rank l = Ok tt →
  match l with
  | [] => True
  | s0 :: _ =>
      (rank = -1 ∨ rank = rank_of s0)
      ∧ Forall (fun s => rank_of s = rank_of s0) l
  end.
Proof.
  induction l as [|s0 l IH]; intros rank; [done|].
  cbn [rank_loop]. fold (rank_of s0).
  destruct (Z.eqb_spec rank (-1)); cbn [negb andb];
    [|destruct (Z.eqb_spec rank (rank_of s0)); cbn [negb]; [|done]];
    intros Hrest; apply IH in Hrest;
    (split; [by eauto|]); (constructor; [done|]);
    (destruct l as [|s1 l]; [constructor|]);
    destruct Hrest as [[Hneg|Heq] Hall];
    try (unfold rank_of in Hneg; lia);
    rewrite Heq; done.
Qed.

Lemma rank_loop_consistent l (i j : nat) s1 s2 :
  rank_loop (-1) l = Ok tt →
  l !! i = Some s1 → l !! j = Some s2 →
  length (shard_offsets s1) = length (shard_offsets s2).
Proof.
  intros Hloop H1 H2. apply rank_loop_Ok in Hloop.
  destruct l as [|s0 l]; [done|]. destruct Hloop as [_ Hall].
  rewrite Forall_lookup in Hall.
  pose proof (Hall _ _ H1) as E1. pose proof (Hall _ _ H2) as E2.
  unfold rank_of in *. lia.
Qed.

(** A coordinate in both boxes makes the pairwise test succeed. *)
Lemma pair_overlap_of_common_coordinate (c o1 z1 o2 z2 : list Z) :
  length c = length o1 → length c = length z1 →
  length c = length o2 → length c = length z2 →
  forallb (fun '(x, (o, z)) => (o <=? x) && (x <? o + z))
    (zip c (zip o1 z1)) = true →
  forallb (fun '(x, (o, z)) => (o <=? x) && (x <? o + z))
    (zip c (zip o2 z2)) = true →
  forallb (fun '((a1, b1), (a2, b2)) => (a1 <? a2 + b2) && (a2 <? a1 + b1))
    (zip (zip o1 z1) (zip o2 z2)) = true.
Proof.
  revert o1 z1 o2 z2.
  induction c as [|x c IH]; intros [|a1 o1] [|b1 z1] [|a2 o2] [|b2 z2];
    try discriminate; [done|].
  cbn [length zip zip_with forallb]. intros [=] [=] [=] [=].
  rewrite !andb_true_iff, !Z.leb_le, !Z.ltb_lt.
  intros [[] ?] [[] ?]. split; [lia|]. by apply IH.
Qed.

Lemma boxes_overlap_check s1 s2 :
  boxes_overlap s1 s2 → _check_shard_metadata_pair_overlap s1 s2 = true.
Proof.
  intros (c & H1 & H2). unfold in_box in *.
  rewrite !andb_true_iff, !Nat.eqb_eq in H1, H2.
  destruct H1 as [[] ?], H2 as [[] ?].
  by apply (pair_overlap_of_common_coordinate c).
Qed.

Lemma boxes_overlap_sym s1 s2 : boxes_overlap s1 s2 → boxes_overlap s2 s1.
Proof. intros (c & ? & ?). by exists c. Qed.

(** When the overlap validation passes, the pairwise test fails on
    every pair of positions. *)
Lemma validate_non_overlapping_Ok l :
  validate_non_overlapping_shards_metadata l = Ok tt →
  ∀ (i j : nat) s1 s2,
    (i < j)%nat → l !! i = Some s1 → l !! j = Some s2 →
    _check_shard_metadata_pair_overlap s1 s2 = false.
Proof.
  induction l as [|s l IH]; [done|].
  cbn [validate_non_overlapping_shards_metadata].
  destruct (existsb _ l) eqn:Hex; [done|]. intros Hrest i j s1 s2 Hij H1 H2.
  destruct j as [|j]; [lia|]. destruct i as [|i].
  - injection H1 as <-. simpl in H2.
    destruct (_check_shard_metadata_pair_overlap s s2) eqn:Hc; [|done].
    assert (existsb (_check_shard_metadata_pair_overlap s) l = true);
      [|congruence].
    apply existsb_exists. exists s2. split; [|done].
    apply list_elem_of_In. by eapply list_elem_of_lookup_2.
  - simpl in H1, H2. apply (IH Hrest i j); [lia|done..].
Qed.

Lemma validate_non_overlapping_overlap l (i j : nat) s1 s2 :
  i ≠ j → l !! i = Some s1 → l !! j = Some s2 → boxes_overlap s1 s2 →
  validate_non_overlapping_shards_metadata l = Raise OverlapError.
Proof.
  intros Hij H1 H2 Hov.
  assert (∀ l', validate_non_overlapping_shards_metadata l' = Ok tt
                ∨ validate_non_overlapping_shards_metadata l'
                  = Raise OverlapError) as Hcases.
  { induction l' as [|s l' IH]; [by left|]. simpl.
    destruct (existsb _ l'); [by right|done]. }
  destruct (Hcases l) as [Hok|]; [|done].
  pose proof (validate_non_overlapping_Ok l Hok) as Hno.
  destruct (Nat.lt_total i j) as [Hlt|[?|Hlt]]; [|done|].
  - pose proof (Hno i j s1 s2 Hlt H1 H2) as Hc.
    rewrite (boxes_overlap_check _ _ Hov) in Hc. discriminate.
  - apply boxes_overlap_sym in Hov.
    pose proof (Hno j i s2 s1 Hlt H2 H1) as Hc.
    rewrite (boxes_overlap_check _ _ Hov) in Hc. discriminate.
Qed.

End Enumerable.

Section Coverage.

(** [all_coords] lists exactly the coordinates of the shape. *)
Lemma in_all_coords (tensor_sizes : list Z) :
  ∀ c, In c (all_coords tensor_sizes) ↔ in_shape c tensor_sizes = true.
Proof.
  induction tensor_sizes as [|n rest IH]; intros c.
  - destruct c; simpl; [tauto|]. split; [intros [[=]|[]]|done].
  - cbn [all_coords]. rewrite in_flat_map. split.
    + intros (x & Hx & Hc). apply in_map_iff in Hc as (c' & <- & Hc').
      apply list_elem_of_In, elem_of_seqZ in Hx. apply IH in Hc'.
      unfold in_shape in *. cbn [length zip zip_with forallb Nat.eqb].
      apply andb_true_iff in Hc' as [Hlen Hall].
      rewrite Hlen, Hall.
      replace (0 <=? x) with true by (symmetry; apply Z.leb_le; lia).
      replace (x <? n) with true by (symmetry; apply Z.ltb_lt; lia).
      done.
    + destruct c as [|x c']; [done|]. unfold in_shape.
      cbn [length zip zip_with forallb Nat.eqb].
      rewrite !andb_true_iff, Z.leb_le, Z.ltb_lt.
      intros (Hlen & [Hlo Hhi] & Hall). exists x. split.
      * apply list_elem_of_In, elem_of_seqZ. lia.
      * apply in_map, IH. unfold in_shape. by rewrite Hlen, Hall.
Qed.

(** The coordinate sweep decides exact tiling. *)
Lemma check_tensor_Ok (l : list ShardMetadata) (tensor_sizes : list Z) :
  check_tensor l tensor_sizes = Ok tt ↔ tiles_exactly l tensor_sizes.
Proof.
  unfold check_tensor, tiles_exactly.
  destruct (forallb (fun s => within_shape s tensor_sizes) l) eqn:Hin;
    cbn [andb].
  - rewrite forallb_forall in Hin.
    destruct (forallb _ (all_coords tensor_sizes)) eqn:Hall.
    + rewrite forallb_forall in Hall. split; [|done]. intros _. split.
      * intros s Hs. by apply Hin, list_elem_of_In.
      * intros c Hc. by apply Nat.eqb_eq, Hall, in_all_coords.
    + split; [done|]. intros [_ Hcover].
      assert (forallb (fun c => Nat.eqb (cover_count l c) 1)
                (all_coords tensor_sizes) = true); [|congruence].
      apply forallb_forall. intros c Hc.
      by apply Nat.eqb_eq, Hcover, in_all_coords.
  - split; [done|]. intros [Hwithin _].
    assert (forallb (fun s => within_shape s tensor_sizes) l = true);
      [|congruence].
    apply forallb_forall. intros s Hs. by apply Hwithin, list_elem_of_In.
Qed.

Lemma check_tensor_cases (l : list ShardMetadata) (tensor_sizes : list Z) :
  check_tensor l tensor_sizes = Ok tt
  ∨ check_tensor l tensor_sizes = Raise ShapeMismatchError.
Proof. unfold check_tensor. destruct (_ && _); eauto. Qed.

End Coverage.

(** C7. Construction of an [EnumerableShardingSpec] fails on an empty
    shard list, fails with the inconsistent-rank error when two shards
    have offsets of different lengths, and fails when two shards overlap
    (with the overlap error, unless the ranks were inconsistent already). A
    constructed spec holds the list it was given; on it [build_metadata]
    fails when the shards do not exactly tile the global shape and
    otherwise returns the metadata that wraps the list as supplied. *)
Theorem EnumerableShardingSpec_validates :
  EnumerableShardingSpec_new [] = Raise (ValueError EmptyShardList)
  ∧ (∀ l (i j : nat) s1 s2,
       l !! i = Some s1 → l !! j = Some s2 →
       length (shard_offsets s1) ≠ length (shard_offsets s2) →
       ∃ r1 r2, r1 ≠ r2
         ∧ EnumerableShardingSpec_new l
           = Raise (ValueError (InconsistentRanks r1 r2)))
  ∧ (∀ l (i j : nat) s1 s2,
       i ≠ j → l !! i = Some s1 → l !! j = Some s2 → boxes_overlap s1 s2 →
       EnumerableShardingSpec_new l = Raise OverlapError
       ∨ ∃ r1 r2, EnumerableShardingSpec_new l
                  = Raise (ValueError (InconsistentRanks r1 r2)))
  ∧ (∀ l self,
       EnumerableShardingSpec_new l = Ok self →
       shards self = l
       ∧ ∀ tensor_sizes props pg,
           (¬ tiles_exactly l tensor_sizes →
            Enumerable_build_metadata self tensor_sizes props pg
            = Raise ShapeMismatchError)
           ∧ (tiles_exactly l tensor_sizes →
              Enumerable_build_metadata self tensor_sizes props pg
              = Ok (mkShardedTensorMetadata l tensor_sizes props))).
Proof.
  assert (∀ l (i : nat) s, l !! i = Some s →
            EnumerableShardingSpec_new l
            = (check! rank_loop (-1) l in
               check! validate_non_overlapping_shards_metadata l in
               Ok (mkEnumerableShardingSpec l))) as Hnonempty.
  { intros l i s Hs. unfold EnumerableShardingSpec_new,
      EnumerableShardingSpec_post_init. cbn [shards].
    destruct l; [done|]. cbn [length Nat.eqb].
    by destruct (rank_loop _ _). }
  split; [done|]. split; [|split].
  - intros l i j s1 s2 H1 H2 Hne. rewrite (Hnonempty _ _ _ H1).
    destruct (rank_loop (-1) l) as [[]|e] eqn:Hloop.
    + by destruct Hne, (rank_loop_consistent l i j s1 s2).
    + apply rank_loop_Raise in Hloop as (r1 & r2 & -> & Hr).
      by exists r1, r2.
  - intros l i j s1 s2 Hij H1 H2 Hov. rewrite (Hnonempty _ _ _ H1).
    destruct (rank_loop (-1) l) as [[]|e] eqn:Hloop.
    + left. cbn [rbind].
      by rewrite (validate_non_overlapping_overlap l i j s1 s2).
    + right. apply rank_loop_Raise in Hloop as (r1 & r2 & -> & _). eauto.
  - intros l self Hnew.
    assert (self = mkEnumerableShardingSpec l) as ->.
    { unfold EnumerableShardingSpec_new in Hnew.
      destruct (EnumerableShardingSpec_post_init _); [|done].
      by injection Hnew. }
    split; [done|]. intros tensor_sizes props pg.
    unfold Enumerable_build_metadata. cbn [shards].
    pose proof (check_tensor_Ok l tensor_sizes) as Hiff.
    destruct (check_tensor_cases l tensor_sizes) as [Hc|Hc]; rewrite Hc in *.
    + split; [|done]. intros Hnot. destruct Hnot. by apply Hiff.
    + split; [done|]. intros Htiles. apply Hiff in Htiles. discriminate.
Qed.

Lemma EnumerableShardingSpec_validates_witness :
  (EnumerableShardingSpec_new clashing = Raise OverlapError
   ∨ ∃ r1 r2, EnumerableShardingSpec_new clashing
              = Raise (ValueError (InconsistentRanks r1 r2)))
  ∧ Enumerable_build_metadata (mkEnumerableShardingSpec two_halves) [4]
      sample_props None
    = Ok (mkShardedTensorMetadata two_halves [4] sample_props).
Proof.
  destruct EnumerableShardingSpec_validates as (_ & _ & Hoverlap & Hbuild).
  split.
  - apply (Hoverlap clashing 0%nat 1%nat
             (mkShardMetadata [0] [2] (rank_dev 0))
             (mkShardMetadata [1] [2] (rank_dev 1)));
      [lia|reflexivity|reflexivity|].
    exists [1]. split; vm_compute; reflexivity.
  - apply (Hbuild two_halves (mkEnumerableShardingSpec two_halves)
             ltac:(vm_compute; reflexivity)).
    apply check_tensor_Ok. vm_compute. reflexivity.
Defined.

(** * Further properties of the code *)

(** ** Construction of a [ChunkShardingSpec], success and failure *)

Section PostInitOutcomes.

Context (_remote_device : string → result remote_device) (l : loc).

(** A list of devices only is left as it is. *)
Lemma post_init_loop_devices (rest : list Placement) :
  ∀ (i : nat) (w : World),
    Forall (fun p => is_remote_device p = true) rest →
    post_init_loop _remote_device l i rest w = (Ok tt, w).
Proof.
  induction rest as [|p rest IH]; intros i w Hall; [done|].
  apply Forall_cons in Hall as [Hp Hrest].
  destruct p as [s|d]; [done|]. cbn [post_init_loop]. by apply IH.
Qed.

(** The loop fails at the first string that does not parse, with the
    parser's error; what it had visited stays rewritten, the rest of the
    list is as it was. *)
Lemma post_init_loop_stops (pre : list Placement) :
  ∀ (visited : list Placement) (w : World) s post e,
    heap w !!! l = visited ++ pre ++ PStr s :: post →
    Forall (fun p => parses _remote_device p = true) pre →
    _remote_device s = Raise e →
    ∃ w' pre',
      post_init_loop _remote_device l (length visited)
        (pre ++ PStr s :: post) w = (Raise e, w')
      ∧ heap w' !!! l = visited ++ pre' ++ PStr s :: post
      ∧ Forall2 (parsed_as _remote_device) pre pre'
      ∧ (∀ l', l' ≠ l → heap w' !! l' = heap w !! l')
      ∧ collectives w' = collectives w
      ∧ next_storage w' = next_storage w.
Proof.
  induction pre as [|p pre IH]; intros visited w s post e Hl Hpre Hs.
  - exists w, []. cbn [app post_init_loop]. rewrite Hs.
    by repeat split.
  - apply Forall_cons in Hpre as [Hp Hpre].
    destruct p as [s0|d]; cbn [app post_init_loop].
    + simpl in Hp. destruct (_remote_device s0) as [d|e0] eqn:Hs0; [|done].
      replace (S (length visited)) with (length (visited ++ [PDev d]))
        by (rewrite length_app; simpl; lia).
      edestruct (IH (visited ++ [PDev d])
                   (mkWorld (<[l := <[length visited := PDev d]>
                                      (heap w !!! l)]> (heap w))
                      (collectives w) (next_storage w)) s post e) as
        (w' & pre' & Hrun & Hl' & Hrel & Hother & Hc & Hn); [|done|done|].
      { cbn [heap]. rewrite lookup_total_insert_eq, Hl.
        rewrite insert_app_r_alt by lia. rewrite Nat.sub_diag. simpl.
        by rewrite <- app_assoc. }
      exists w', (PDev d :: pre'). rewrite Hrun.
      cbn [heap collectives next_storage] in *.
      rewrite <- app_assoc in Hl'. repeat split; try done.
      * constructor; [|done]. simpl. eauto.
      * intros l' Hne. rewrite Hother by done. by rewrite lookup_insert_ne.
    + replace (S (length visited)) with (length (visited ++ [PDev d]))
        by (rewrite length_app; simpl; lia).
      edestruct (IH (visited ++ [PDev d]) w s post e) as
        (w' & pre' & Hrun & Hl' & Hrel & Hrem); [|done|done|].
      { by rewrite <- app_assoc. }
      exists w', (PDev d :: pre'). rewrite Hrun.
      rewrite <- app_assoc in Hl'. destruct Hrem as (? & ? & ?).
      repeat split; try done. by constructor.
Qed.

(** The loop goes through when every string parses. *)
Lemma post_init_loop_parses (rest : list Placement) :
  ∀ (visited : list Placement) (w : World),
    Forall (fun p => parses _remote_device p = true) rest →
    ∃ w', post_init_loop _remote_device l (length visited) rest w = (Ok tt, w').
Proof.
  induction rest as [|p rest IH]; intros visited w Hall; [by exists w|].
  apply Forall_cons in Hall as [Hp Hrest].
  destruct p as [s|d]; cbn [post_init_loop].
  - simpl in Hp. destruct (_remote_device s) as [d|e]; [|done].
    replace (S (length visited)) with (length (visited ++ [PDev d]))
      by (rewrite length_app; simpl; lia).
    by apply IH.
  - replace (S (length visited)) with (length (visited ++ [PDev d]))
      by (rewrite length_app; simpl; lia).
    by apply IH.
Qed.

Lemma parsed_as_parses (before after : Placement) :
  parsed_as _remote_device before after →
  parses _remote_device before = true.
Proof. destruct before; [intros (d & Hd & _); simpl; by rewrite Hd|done]. Qed.

(** After a construction that succeeded, the list holds devices only. *)
Lemma ChunkShardingSpec_new_devices dim0 w0 w1 self :
  ChunkShardingSpec_new _remote_device dim0 l w0 = (Ok self, w1) →
  Forall2 (parsed_as _remote_device) (heap w0 !!! l) (heap w1 !!! l).
Proof.
  intros Hnew.
  destruct (ChunkShardingSpec_new_Ok _ _ _ _ _ _ Hnew) as (-> & d & ->).
  unfold ChunkShardingSpec_new, ChunkShardingSpec_post_init, mbind', lift,
    read_heap, mret in Hnew. cbn [dim placements _verify_dim] in Hnew.
  destruct (post_init_loop _ _ _ _ _) as [[[]|e] w] eqn:Hloop;
    [|discriminate].
  injection Hnew as <-.
  apply (post_init_loop_Ok _ _ _ []) in Hloop as (rest' & Hl & Hrest & _);
    [|done].
  simpl in Hl. by rewrite Hl.
Qed.

End PostInitOutcomes.

(** X1. Construction of a [ChunkShardingSpec] succeeds exactly when the
    dimension is an integer and every string of the caller's list
    parses. *)
Theorem ChunkShardingSpec_new_succeeds_iff _remote_device dim0 l w0 :
  is_ok (fst (ChunkShardingSpec_new _remote_device dim0 l w0)) = true
  ↔ (∃ d, dim0 = DimInt d)
    ∧ Forall (fun p => parses _remote_device p = true) (heap w0 !!! l).
Proof.
  split.
  - destruct (ChunkShardingSpec_new _ _ _ _) as [[self|e] w1] eqn:Hnew;
      [|done]. intros _.
    split; [by destruct (ChunkShardingSpec_new_Ok _ _ _ _ _ _ Hnew) as [_ ?]|].
    apply ChunkShardingSpec_new_devices in Hnew.
    induction Hnew; constructor; eauto using parsed_as_parses.
  - intros [[d ->] Hall].
    unfold ChunkShardingSpec_new, ChunkShardingSpec_post_init, mbind', lift,
      read_heap, mret. cbn [dim placements _verify_dim].
    destruct (post_init_loop_parses _remote_device l _ [] w0 Hall)
      as [w' Hrun].
    cbn [length] in Hrun. by rewrite Hrun.
Qed.

(** X2. Construction is not atomic. When the first string that does not
    parse stands behind entries that do, construction raises the parser's
    error for that string, and the caller's list keeps the devices
    already written into it: the entries before the string are rewritten,
    the string and everything after it are as they were. *)
Theorem ChunkShardingSpec_new_fails_partway
    _remote_device d l w0 pre s post e :
  heap w0 !!! l = pre ++ PStr s :: post →
  Forall (fun p => parses _remote_device p = true) pre →
  _remote_device s = Raise e →
  ∃ w1 pre',
    ChunkShardingSpec_new _remote_device (DimInt d) l w0 = (Raise e, w1)
    ∧ heap w1 !!! l = pre' ++ PStr s :: post
    ∧ Forall2 (parsed_as _remote_device) pre pre'
    ∧ (∀ l', l' ≠ l → heap w1 !! l' = heap w0 !! l').
Proof.
  intros Hl Hpre Hs.
  destruct (post_init_loop_stops _remote_device l pre [] w0 s post e
              Hl Hpre Hs) as (w1 & pre' & Hrun & Hl' & Hrel & Hother & _).
  exists w1, pre'.
  unfold ChunkShardingSpec_new, ChunkShardingSpec_post_init, mbind', lift,
    read_heap, mret. cbn [dim placements _verify_dim].
  rewrite Hl. cbn [length] in Hrun. by rewrite Hrun.
Qed.

Lemma ChunkShardingSpec_new_fails_partway_witness :
  ∃ w1 pre',
    ChunkShardingSpec_new two_ranks (DimInt 0) 6%nat bad_second
    = (Raise (ValueError InvalidPlacement), w1)
    ∧ heap w1 !!! 6%nat = pre' ++ PStr "gpu" :: [PStr "rank:1"]
    ∧ Forall2 (parsed_as two_ranks) [PStr "rank:0"] pre'
    ∧ (∀ l', l' ≠ 6%nat → heap w1 !! l' = heap bad_second !! l').
Proof.
  apply (ChunkShardingSpec_new_fails_partway two_ranks 0 6%nat bad_second
           [PStr "rank:0"] "gpu" [PStr "rank:1"]
           (ValueError InvalidPlacement)).
  - vm_compute. reflexivity.
  - repeat constructor.
  - reflexivity.
Defined.

(** X3. Construction is idempotent on the caller's list: once a spec was
    built from a list, building another spec from the same list, with any
    integer dimension, succeeds and changes nothing. *)
Theorem ChunkShardingSpec_new_twice _remote_device dim0 l w0 w1 self d :
  ChunkShardingSpec_new _remote_device dim0 l w0 = (Ok self, w1) →
  ChunkShardingSpec_new _remote_device (DimInt d) l w1
  = (Ok (mkChunkShardingSpec (DimInt d) l), w1).
Proof.
  intros Hnew. apply ChunkShardingSpec_new_devices in Hnew.
  unfold ChunkShardingSpec_new, ChunkShardingSpec_post_init, mbind', lift,
    read_heap, mret. cbn [dim placements _verify_dim].
  rewrite post_init_loop_devices; [done|].
  induction Hnew; constructor; eauto using parsed_as_is_remote_device.
Qed.

Lemma ChunkShardingSpec_new_twice_witness :
  ChunkShardingSpec_new two_ranks (DimInt 1) 2%nat
    (snd (ChunkShardingSpec_new two_ranks (DimInt 0) 2%nat mixed_placements))
  = (Ok (mkChunkShardingSpec (DimInt 1) 2%nat),
     snd (ChunkShardingSpec_new two_ranks (DimInt 0) 2%nat mixed_placements)).
Proof.
  apply (ChunkShardingSpec_new_twice two_ranks (DimInt 0) 2%nat
           mixed_placements _ (mkChunkShardingSpec (DimInt 0) 2%nat) 1).
  vm_compute. reflexivity.
Defined.

(** ** [DevicePlacementSpec] *)

(** X4. A [DevicePlacementSpec] is constructed exactly when its device
    is a remote device already or a string that parses; the device it then
    holds is a remote device, the one given or the one the string parses
    to. A [ChunkShardingSpec] treats a one-element placements list the
    same way: it is constructed in exactly the same cases and leaves that
    device in the list. *)
Theorem DevicePlacementSpec_new_normalizes _remote_device p :
  (is_ok (DevicePlacementSpec_new _remote_device p)
   = parses _remote_device p)
  ∧ (∀ self,
       DevicePlacementSpec_new _remote_device p = Ok self →
       parsed_as _remote_device p (device self)
       ∧ is_remote_device (device self) = true
       ∧ ∀ d l w, heap w !!! l = [p] →
           ∃ w', ChunkShardingSpec_new _remote_device (DimInt d) l w
                 = (Ok (mkChunkShardingSpec (DimInt d) l), w')
                 ∧ heap w' !!! l = [device self])
  ∧ (∀ e,
       DevicePlacementSpec_new _remote_device p = Raise e →
       ∀ d l w, heap w !!! l = [p] →
         ChunkShardingSpec_new _remote_device (DimInt d) l w = (Raise e, w)).
Proof.
  unfold DevicePlacementSpec_new, DevicePlacementSpec_post_init.
  cbn [device]. split; [|split].
  - destruct p as [s|d]; [|done]. simpl. by destruct (_remote_device s).
  - intros self Hself. destruct p as [s|d0].
    + destruct (_remote_device s) as [d0|e] eqn:Hs; [|done].
      injection Hself as <-. cbn [device]. split; [simpl; eauto|].
      split; [done|]. intros d l w Hl.
      unfold ChunkShardingSpec_new, ChunkShardingSpec_post_init, mbind',
        lift, read_heap, mret. cbn [dim placements _verify_dim].
      rewrite Hl. cbn [post_init_loop]. rewrite Hs. cbn [mret].
      eexists. split; [reflexivity|]. cbn [heap].
      by rewrite lookup_total_insert_eq, Hl.
    + injection Hself as <-. cbn [device]. split; [done|]. split; [done|].
      intros d l w Hl.
      unfold ChunkShardingSpec_new, ChunkShardingSpec_post_init, mbind',
        lift, read_heap, mret. cbn [dim placements _verify_dim].
      rewrite Hl. cbn [post_init_loop mret]. by exists w.
  - intros e He d l w Hl. destruct p as [s|d0]; [|done].
    destruct (_remote_device s) as [d0|e0] eqn:Hs; [done|].
    injection He as <-.
    unfold ChunkShardingSpec_new, ChunkShardingSpec_post_init, mbind',
      lift, read_heap, mret. cbn [dim placements _verify_dim].
    rewrite Hl. cbn [post_init_loop]. by rewrite Hs.
Qed.

Lemma DevicePlacementSpec_new_normalizes_witness :
  ∃ w', ChunkShardingSpec_new two_ranks (DimInt 0) 7%nat
          (world_of 7%nat [PStr "rank:1"])
        = (Ok (mkChunkShardingSpec (DimInt 0) 7%nat), w')
        ∧ heap w' !!! 7%nat = [rank_dev 1].
Proof.
  destruct (DevicePlacementSpec_new_normalizes two_ranks (PStr "rank:1"))
    as (_ & Hok & _).
  destruct (Hok (mkDevicePlacementSpec (rank_dev 1)) eq_refl)
    as (_ & _ & Hlist).
  apply (Hlist 0 7%nat (world_of 7%nat [PStr "rank:1"])).
  vm_compute. reflexivity.
Defined.

(** ** The descriptors of [ChunkShardingSpec.build_metadata], one by one *)

Section ChunkPositions.

Context (k : nat) (tensor_sizes : list Z) (n s : Z).
Hypothesis n_nonneg : 0 ≤ n.
Hypothesis s_nonneg : 0 ≤ s.

(** The descriptor at position [i] is the one of chunk [i], for the
    placement at position [i]. *)
Lemma chunk_descriptors_at (pls : list Placement) (i : nat) sm :
  chunk_descriptors k tensor_sizes n s pls !! i = Some sm
  ↔ ∃ p, pls !! i = Some p
       ∧ Z.of_nat i < ceil_div n s
       ∧ sm = chunk_descriptor k tensor_sizes n s (Z.of_nat i) p.
Proof.
  rewrite chunk_descriptors_prefix, list_lookup_imap by done.
  assert (0 ≤ ceil_div n s) as Hc.
  { destruct (Z.eq_dec s 0) as [->|]; [by rewrite ceil_div_zero_divisor|].
    apply ceil_div_nonneg; lia. }
  split.
  - destruct (take _ pls !! i) as [p|] eqn:Hp; [|done]. intros [= <-].
    apply lookup_take_Some in Hp as [Hp Hi]. exists p. repeat split; [done|lia].
  - intros (p & Hp & Hi & ->).
    rewrite lookup_take_lt by lia. by rewrite Hp.
Qed.

Lemma chunk_size_at_position (i : nat) :
  Z.of_nat i < ceil_div n s →
  get_chunked_dim_size n s (Z.of_nat i) = Z.min s (n - Z.of_nat i * s)
  ∧ 0 < Z.min s (n - Z.of_nat i * s).
Proof.
  intros Hi. apply get_chunked_dim_size_pos in Hi; [|lia..].
  unfold get_chunked_dim_size in *. lia.
Qed.

End ChunkPositions.

Section BuildMetadataOk.

Context (env : DistEnv) (h : Heap) (self : ChunkShardingSpec)
  (tensor_sizes : list Z) (props : TensorProperties)
  (pg : option ProcessGroup) (d n : Z).
Hypothesis dim_int : dim self = DimInt d.
Hypothesis d_in_range :
  - Z.of_nat (length tensor_sizes) ≤ d < Z.of_nat (length tensor_sizes).
Hypothesis dim_size :
  tensor_sizes !! Z.to_nat (normalize_dim d (Z.of_nat (length tensor_sizes)))
  = Some n.

(** The metadata that was built, in closed form. *)
Lemma build_metadata_Ok md :
  build_metadata env h self tensor_sizes props pg = Ok md →
  h !!! placements self ≠ []
  ∧ md = mkShardedTensorMetadata
           (chunk_descriptors
              (Z.to_nat (normalize_dim d (Z.of_nat (length tensor_sizes))))
              tensor_sizes n
              (ceil_div n (Z.of_nat (length (h !!! placements self))))
              (h !!! placements self))
           tensor_sizes props.
Proof.
  destruct (build_metadata_in_range tensor_sizes d d_in_range env h self
              props pg dim_int) as (n' & Hn' & ->).
  rewrite dim_size in Hn'. injection Hn' as <-.
  destruct (h !!! placements self) as [|p pls]; [done|].
  intros [= <-]. done.
Qed.

End BuildMetadataOk.

(** With a placement and the dimension in range, the metadata is
    built. *)
Lemma build_metadata_nonempty env h self tensor_sizes props pg d n :
  dim self = DimInt d →
  - Z.of_nat (length tensor_sizes) ≤ d < Z.of_nat (length tensor_sizes) →
  tensor_sizes !! Z.to_nat (normalize_dim d (Z.of_nat (length tensor_sizes)))
  = Some n →
  h !!! placements self ≠ [] →
  build_metadata env h self tensor_sizes props pg
  = Ok (mkShardedTensorMetadata
          (chunk_descriptors
             (Z.to_nat (normalize_dim d (Z.of_nat (length tensor_sizes))))
             tensor_sizes n
             (ceil_div n (Z.of_nat (length (h !!! placements self))))
             (h !!! placements self))
          tensor_sizes props).
Proof.
  intros Hdim Hd Hn Hpls.
  destruct (build_metadata_in_range tensor_sizes d Hd env h self props pg
              Hdim) as (n' & Hn' & ->).
  rewrite Hn in Hn'. injection Hn' as <-.
  by destruct (h !!! placements self).
Qed.

Lemma split_size_nonneg (n : Z) (pls : list Placement) :
  0 ≤ n → 0 ≤ ceil_div n (Z.of_nat (length pls)).
Proof.
  intros Hn. destruct pls as [|p pls].
  - by rewrite ceil_div_zero_divisor.
  - apply ceil_div_nonneg; [done|]. simpl. lia.
Qed.

(** X5. A negative sharding dimension counts from the end: on a shape
    of rank [r], [dim = d] with [-r <= d < 0] builds the same metadata as
    [dim = d + r]. *)
Theorem build_metadata_negative_dim env h l tensor_sizes props pg d :
  - Z.of_nat (length tensor_sizes) ≤ d < 0 →
  build_metadata env h (mkChunkShardingSpec (DimInt d) l)
    tensor_sizes props pg
  = build_metadata env h
      (mkChunkShardingSpec (DimInt (d + Z.of_nat (length tensor_sizes))) l)
      tensor_sizes props pg.
Proof.
  intros Hd.
  destruct (build_metadata_in_range tensor_sizes d ltac:(lia) env h
              (mkChunkShardingSpec (DimInt d) l) props pg eq_refl)
    as (n1 & Hn1 & ->).
  destruct (build_metadata_in_range tensor_sizes
              (d + Z.of_nat (length tensor_sizes)) ltac:(lia) env h
              (mkChunkShardingSpec
                 (DimInt (d + Z.of_nat (length tensor_sizes))) l)
              props pg eq_refl)
    as (n2 & Hn2 & ->).
  assert (normalize_dim (d + Z.of_nat (length tensor_sizes))
            (Z.of_nat (length tensor_sizes))
          = normalize_dim d (Z.of_nat (length tensor_sizes))) as Hk.
  { unfold normalize_dim.
    destruct (Z.ltb_spec (d + Z.of_nat (length tensor_sizes)) 0),
      (Z.ltb_spec d 0); lia. }
  rewrite Hk in *. rewrite Hn1 in Hn2. by injection Hn2 as <-.
Qed.

Lemma build_metadata_negative_dim_witness :
  build_metadata (env_of 0 4) five_placements
    (mkChunkShardingSpec (DimInt (-1)) 1%nat) [2; 3] sample_props None
  = build_metadata (env_of 0 4) five_placements
      (mkChunkShardingSpec (DimInt (-1 + Z.of_nat (length [2; 3]))) 1%nat)
      [2; 3] sample_props None.
Proof.
  apply (build_metadata_negative_dim (env_of 0 4) five_placements 1%nat
           [2; 3] sample_props None (-1)).
  simpl. lia.
Defined.

(** X6. The descriptor at position [i] of the metadata belongs to the
    placement at position [i] of the spec: empty chunks only come at the
    end, so no placement is skipped before one that is used. It has the
    rank of the tensor, offset [split_size * i] and the positive size
    [min(split_size, N - i * split_size)] on the sharded dimension, offset
    0 and the tensor's size on every other. *)
Theorem build_metadata_descriptor_at
    env h self tensor_sizes props pg d N md (i : nat) sm :
  dim self = DimInt d →
  - Z.of_nat (length tensor_sizes) ≤ d < Z.of_nat (length tensor_sizes) →
  let dimIndex := Z.to_nat (normalize_dim d (Z.of_nat (length tensor_sizes))) in
  let split_size :=
    ceil_div N (Z.of_nat (length (h !!! placements self))) in
  tensor_sizes !! dimIndex = Some N →
  0 ≤ N →
  build_metadata env h self tensor_sizes props pg = Ok md →
  shards_metadata md !! i = Some sm →
  (h !!! placements self) !! i = Some (placement sm)
  ∧ shard_offsets sm
    = <[dimIndex := split_size * Z.of_nat i]>
        (replicate (length tensor_sizes) 0)
  ∧ shard_sizes sm
    = <[dimIndex := Z.min split_size (N - Z.of_nat i * split_size)]>
        tensor_sizes
  ∧ 0 < Z.min split_size (N - Z.of_nat i * split_size)
  ∧ length (shard_offsets sm) = length tensor_sizes
  ∧ length (shard_sizes sm) = length tensor_sizes.
Proof.
  intros Hdim Hd dimIndex split_size HN Hnonneg Hbuild Hsm.
  destruct (build_metadata_Ok env h self tensor_sizes props pg d N
              Hdim Hd HN md Hbuild) as [_ ->].
  cbn [shards_metadata] in Hsm. fold dimIndex split_size in Hsm.
  pose proof (split_size_nonneg N (h !!! placements self) Hnonneg) as Hs.
  fold split_size in Hs.
  apply chunk_descriptors_at in Hsm as (p & Hp & Hi & ->); [|done..].
  destruct (chunk_size_at_position N split_size Hnonneg Hs i Hi) as [Hz Hpos].
  unfold chunk_descriptor. cbn [placement shard_offsets shard_sizes].
  rewrite Hz, !length_insert, length_replicate. by repeat split.
Qed.

Lemma build_metadata_descriptor_at_witness :
  ∃ md sm,
    build_metadata (env_of 0 4) (heap three_ranks) thirds_spec [10; 2]
      sample_props None = Ok md
    ∧ shards_metadata md !! 2%nat = Some sm
    ∧ placement sm = rank_dev 2
    ∧ shard_offsets sm = [8; 0]
    ∧ shard_sizes sm = [2; 2].
Proof.
  assert (∃ md, build_metadata (env_of 0 4) (heap three_ranks) thirds_spec [10; 2]
                  sample_props None = Ok md) as [md Hmd]
    by (eexists; vm_compute; reflexivity).
  assert (∃ sm, shards_metadata md !! 2%nat = Some sm) as [sm Hsm].
  { vm_compute in Hmd. injection Hmd as <-. eexists. reflexivity. }
  exists md, sm. split; [exact Hmd|]. split; [exact Hsm|].
  destruct (build_metadata_descriptor_at (env_of 0 4) (heap three_ranks) thirds_spec
              [10; 2] sample_props None 0 10 md 2%nat sm
              eq_refl ltac:(simpl; lia) eq_refl ltac:(lia) Hmd Hsm)
    as (Hp & Ho & Hz & _).
  split; [|split].
  - cut (Some (placement sm) = Some (rank_dev 2)); [by intros [=]|].
    rewrite <- Hp. vm_compute. reflexivity.
  - rewrite Ho. vm_compute. reflexivity.
  - rewrite Hz. vm_compute. reflexivity.
Defined.

(** X7. On the sharded dimension the emitted ranges follow one another
    without a gap: the first starts at 0, every descriptor that has a
    successor is [split_size] wide and its successor starts where it ends,
    and the last one ends at the size of the dimension. Only the last
    descriptor can be narrower than [split_size]. *)
Theorem build_metadata_ranges_consecutive
    env h self tensor_sizes props pg d N md :
  dim self = DimInt d →
  - Z.of_nat (length tensor_sizes) ≤ d < Z.of_nat (length tensor_sizes) →
  let dimIndex := Z.to_nat (normalize_dim d (Z.of_nat (length tensor_sizes))) in
  let split_size :=
    ceil_div N (Z.of_nat (length (h !!! placements self))) in
  tensor_sizes !! dimIndex = Some N →
  0 ≤ N →
  build_metadata env h self tensor_sizes props pg = Ok md →
  (∀ sm, shards_metadata md !! 0%nat = Some sm →
     shard_offsets sm !! dimIndex = Some 0)
  ∧ (∀ (i : nat) sm sm',
       shards_metadata md !! i = Some sm →
       shards_metadata md !! S i = Some sm' →
       ∃ o, shard_offsets sm !! dimIndex = Some o
            ∧ shard_sizes sm !! dimIndex = Some split_size
            ∧ shard_offsets sm' !! dimIndex = Some (o + split_size))
  ∧ (∀ sm, last (shards_metadata md) = Some sm →
       ∃ o z, shard_offsets sm !! dimIndex = Some o
              ∧ shard_sizes sm !! dimIndex = Some z
              ∧ o + z = N).
Proof.
  intros Hdim Hd dimIndex split_size HN Hnonneg Hbuild.
  destruct (build_metadata_Ok env h self tensor_sizes props pg d N
              Hdim Hd HN md Hbuild) as [Hpls ->].
  cbn [shards_metadata]. fold dimIndex split_size.
  pose proof (split_size_nonneg N (h !!! placements self) Hnonneg) as Hs.
  fold split_size in Hs.
  assert (dimIndex < length tensor_sizes)%nat as Hk
    by (by apply lookup_lt_Some in HN).
  assert (∀ (i : nat) sm,
            chunk_descriptors dimIndex tensor_sizes N split_size
              (h !!! placements self) !! i = Some sm →
            Z.of_nat i < ceil_div N split_size
            ∧ shard_offsets sm !! dimIndex = Some (split_size * Z.of_nat i)
            ∧ shard_sizes sm !! dimIndex
              = Some (Z.min split_size (N - Z.of_nat i * split_size)))
    as Hat.
  { intros i sm Hsm.
    destruct (chunk_descriptors_lookup dimIndex tensor_sizes N split_size
                Hnonneg Hs _ _ _ Hk Hsm) as [Ho Hz].
    apply chunk_descriptors_at in Hsm as (p & _ & Hi & _); [|done..].
    destruct (chunk_size_at_position N split_size Hnonneg Hs i Hi) as [E _].
    rewrite E in Hz. done. }
  split; [|split].
  - intros sm Hsm. destruct (Hat _ _ Hsm) as (_ & Ho & _).
    by rewrite Z.mul_0_r in Ho.
  - intros i sm sm' Hsm Hsm'.
    destruct (Hat _ _ Hsm) as (_ & Ho & Hz).
    destruct (Hat _ _ Hsm') as (Hi' & Ho' & _).
    destruct (chunk_size_at_position N split_size Hnonneg Hs (S i) Hi')
      as [_ Hpos].
    exists (split_size * Z.of_nat i). split; [done|]. split.
    + rewrite Hz. f_equal. lia.
    + rewrite Ho'. f_equal. lia.
  - intros sm Hlast. rewrite last_lookup in Hlast.
    destruct (Hat _ _ Hlast) as (Hi & Ho & Hz).
    eexists _, _. split; [done|]. split; [done|].
    pose proof (chunk_descriptors_length dimIndex tensor_sizes N split_size
                  Hnonneg Hs (h !!! placements self)) as Hlen.
    set (len := length (chunk_descriptors dimIndex tensor_sizes N split_size
                          (h !!! placements self))) in *.
    assert (0 < Z.of_nat (length (h !!! placements self))) as HK
      by (destruct (h !!! placements self); [done|simpl; lia]).
    pose proof (ceil_div_bounds N _ HK) as [_ HKs]. fold split_size in HKs.
    assert (0 < split_size) as Hspos.
    { destruct (Z.eq_dec split_size 0) as [E|]; [|lia].
      rewrite E, ceil_div_zero_divisor in Hi. lia. }
    pose proof (ceil_div_bounds N split_size Hspos) as [_ Hcs].
    assert (N ≤ Z.of_nat len * split_size).
    { destruct (Z.min_spec (Z.of_nat (length (h !!! placements self)))
                  (ceil_div N split_size)) as [[_ E]|[_ E]];
        rewrite E in Hlen; rewrite Hlen; lia. }
    assert (Z.of_nat (Nat.pred len) = Z.of_nat len - 1) as -> by lia.
    lia.
Qed.

Lemma build_metadata_ranges_consecutive_witness :
  ∃ md,
    build_metadata (env_of 0 4) (heap three_ranks) thirds_spec [10; 2]
      sample_props None = Ok md
    ∧ ∀ sm, last (shards_metadata md) = Some sm →
        ∃ o z, shard_offsets sm !! 0%nat = Some o
               ∧ shard_sizes sm !! 0%nat = Some z
               ∧ o + z = 10.
Proof.
  assert (∃ md, build_metadata (env_of 0 4) (heap three_ranks) thirds_spec
                  [10; 2] sample_props None = Ok md) as [md Hmd]
    by (eexists; vm_compute; reflexivity).
  exists md. split; [exact Hmd|].
  apply (build_metadata_ranges_consecutive (env_of 0 4) (heap three_ranks)
           thirds_spec [10; 2] sample_props None 0 10 md
           eq_refl ltac:(simpl; lia) eq_refl ltac:(lia) Hmd).
Defined.

(** X8. An even split: when the size of the sharded dimension is [q]
    times the number of placements, with [q > 0], every placement gets a
    descriptor, each [q] wide, the one of placement [i] at offset
    [q * i]. *)
Theorem build_metadata_even_split env h self tensor_sizes props pg d q :
  dim self = DimInt d →
  - Z.of_nat (length tensor_sizes) ≤ d < Z.of_nat (length tensor_sizes) →
  let dimIndex := Z.to_nat (normalize_dim d (Z.of_nat (length tensor_sizes))) in
  h !!! placements self ≠ [] →
  tensor_sizes !! dimIndex
  = Some (Z.of_nat (length (h !!! placements self)) * q) →
  0 < q →
  build_metadata env h self tensor_sizes props pg
  = Ok (mkShardedTensorMetadata
          (imap (fun i p =>
                   mkShardMetadata
                     (<[dimIndex := q * Z.of_nat i]>
                        (replicate (length tensor_sizes) 0))
                     (<[dimIndex := q]> tensor_sizes)
                     p)
             (h !!! placements self))
          tensor_sizes props).
Proof.
  intros Hdim Hd dimIndex Hpls HN Hq.
  destruct (build_metadata_in_range tensor_sizes d Hd env h self props pg
              Hdim) as (n & Hn & ->).
  fold dimIndex in Hn. rewrite HN in Hn. injection Hn as <-. clear HN.
  revert Hpls. generalize (h !!! placements self). intros pls Hpls.
  assert (0 < Z.of_nat (length pls)) as HK
    by (destruct pls; [done|simpl; lia]).
  assert (ceil_div (Z.of_nat (length pls) * q) (Z.of_nat (length pls)) = q)
    as Hsplit.
  { pose proof (ceil_div_bounds (Z.of_nat (length pls) * q) _ HK)
      as [Hlo Hhi].
    apply Z.le_antisymm.
    - apply ceil_div_least; lia.
    - apply Z.mul_le_mono_pos_r with (Z.of_nat (length pls)); lia. }
  assert (ceil_div (Z.of_nat (length pls) * q) q = Z.of_nat (length pls))
    as Hcount.
  { pose proof (ceil_div_bounds (Z.of_nat (length pls) * q) q Hq)
      as [Hlo Hhi].
    apply Z.le_antisymm.
    - apply ceil_div_least; lia.
    - apply Z.mul_le_mono_pos_r with q; lia. }
  assert (chunk_descriptors dimIndex tensor_sizes
            (Z.of_nat (length pls) * q) q pls
          = imap (fun i p =>
                    mkShardMetadata
                      (<[dimIndex := q * Z.of_nat i]>
                         (replicate (length tensor_sizes) 0))
                      (<[dimIndex := q]> tensor_sizes) p) pls) as Hshards.
  { rewrite chunk_descriptors_prefix by lia.
    rewrite Hcount, Nat2Z.id, take_ge by lia.
    apply imap_ext. intros i p Hp. simpl.
    unfold chunk_descriptor. f_equal. f_equal.
    apply lookup_lt_Some in Hp. unfold get_chunked_dim_size.
    assert (q ≤ Z.of_nat (length pls) * q - Z.of_nat i * q); [|lia].
    replace (Z.of_nat (length pls) * q - Z.of_nat i * q)
      with ((Z.of_nat (length pls) - Z.of_nat i) * q) by lia.
    rewrite <- (Z.mul_1_l q) at 1. apply Z.mul_le_mono_nonneg_r; lia. }
  destruct pls as [|p0 pls']; [done|].
  cbv zeta. fold dimIndex. by rewrite Hsplit, Hshards.
Qed.

Lemma build_metadata_even_split_witness :
  build_metadata (env_of 0 4) (heap four_ranks) rows_spec [8; 4]
    sample_props None
  = Ok (mkShardedTensorMetadata
          [mkShardMetadata [0; 0] [2; 4] (rank_dev 0);
           mkShardMetadata [2; 0] [2; 4] (rank_dev 1);
           mkShardMetadata [4; 0] [2; 4] (rank_dev 2);
           mkShardMetadata [6; 0] [2; 4] (rank_dev 3)]
          [8; 4] sample_props).
Proof.
  apply (build_metadata_even_split (env_of 0 4) (heap four_ranks) rows_spec
           [8; 4] sample_props None 0 2);
    [reflexivity|simpl; lia|vm_compute; discriminate|reflexivity|lia].
Defined.

(** ** Geometry of the emitted descriptors *)

Section BoxGeometry.

(** A test on the zip of two lists holds everywhere exactly when it
    holds at every index both lists have. *)
Lemma forallb_zip_lookup {A B} (f : A * B → bool) (l1 : list A) (l2 : list B) :
  forallb f (zip l1 l2) = true
  ↔ ∀ (j : nat) a b, l1 !! j = Some a → l2 !! j = Some b → f (a, b) = true.
Proof.
  rewrite forallb_forall. split.
  - intros Hall j a b Ha Hb. apply Hall, list_elem_of_In.
    apply list_elem_of_lookup_2 with j. apply lookup_zip_with_Some. eauto.
  - intros Hall [a b] Hin.
    apply list_elem_of_In, list_elem_of_lookup_1 in Hin as [j Hj].
    apply lookup_zip_with_Some in Hj as (a' & b' & [= -> ->] & Ha & Hb).
    eauto.
Qed.

Lemma in_box_true (c : list Z) (sm : ShardMetadata) :
  in_box c sm = true
  ↔ length c = length (shard_offsets sm)
    ∧ length c = length (shard_sizes sm)
    ∧ ∀ (j : nat) x o z,
        c !! j = Some x → shard_offsets sm !! j = Some o →
        shard_sizes sm !! j = Some z → o ≤ x < o + z.
Proof.
  unfold in_box. rewrite !andb_true_iff, !Nat.eqb_eq, forallb_zip_lookup.
  split.
  - intros [[Hlo Hlz] Hall]. repeat split; try done;
      assert ((o <=? x) && (x <? o + z) = true) as Ht
        by (apply (Hall j x (o, z)); [done|];
            apply lookup_zip_with_Some; eauto);
      apply andb_true_iff in Ht as [?%Z.leb_le ?%Z.ltb_lt]; lia.
  - intros (Hlo & Hlz & Hall). repeat split; try done.
    intros j x [o z] Hx Hoz.
    apply lookup_zip_with_Some in Hoz as (o' & z' & [= -> ->] & Ho & Hz).
    destruct (Hall j x o' z' Hx Ho Hz).
    apply andb_true_iff. split; [by apply Z.leb_le|by apply Z.ltb_lt].
Qed.

Lemma in_shape_true (c tensor_sizes : list Z) :
  in_shape c tensor_sizes = true
  ↔ length c = length tensor_sizes
    ∧ ∀ (j : nat) x n,
        c !! j = Some x → tensor_sizes !! j = Some n → 0 ≤ x < n.
Proof.
  unfold in_shape. rewrite andb_true_iff, Nat.eqb_eq, forallb_zip_lookup.
  split.
  - intros [Hlen Hall]. split; [done|]. intros j x n Hx Hn.
    specialize (Hall j x n Hx Hn).
    apply andb_true_iff in Hall as [?%Z.leb_le ?%Z.ltb_lt]. lia.
  - intros [Hlen Hall]. split; [done|]. intros j x n Hx Hn.
    destruct (Hall j x n Hx Hn).
    apply andb_true_iff. split; [by apply Z.leb_le|by apply Z.ltb_lt].
Qed.

Lemma within_shape_true (sm : ShardMetadata) (tensor_sizes : list Z) :
  within_shape sm tensor_sizes = true
  ↔ length (shard_offsets sm) = length tensor_sizes
    ∧ length (shard_sizes sm) = length tensor_sizes
    ∧ ∀ (j : nat) o z n,
        shard_offsets sm !! j = Some o → shard_sizes sm !! j = Some z →
        tensor_sizes !! j = Some n → 0 ≤ o ∧ o + z ≤ n.
Proof.
  unfold within_shape.
  rewrite !andb_true_iff, !Nat.eqb_eq, forallb_zip_lookup.
  split.
  - intros [[Hlo Hlz] Hall]. repeat split; try done;
      assert ((0 <=? o) && (o + z <=? n) = true) as Ht
        by (apply (Hall j (o, z) n); [|done];
            apply lookup_zip_with_Some; eauto);
      apply andb_true_iff in Ht as [?%Z.leb_le ?%Z.leb_le]; lia.
  - intros (Hlo & Hlz & Hall). repeat split; try done.
    intros j [o z] n Hoz Hn.
    apply lookup_zip_with_Some in Hoz as (o' & z' & [= -> ->] & Ho & Hz).
    destruct (Hall j o' z' n Ho Hz Hn).
    apply andb_true_iff. split; by apply Z.leb_le.
Qed.

(** A test that singles out one position of a list keeps one element. *)
Lemma filter_imap_unique {A B} (f : B → bool) (l : list A) :
  ∀ (g : nat → A → B) (i0 : nat),
    (i0 < length l)%nat →
    (∀ (i : nat) a, l !! i = Some a → f (g i a) = Nat.eqb i i0) →
    length (List.filter f (imap g l)) = 1%nat.
Proof.
  induction l as [|a l IH]; intros g i0 Hi0 Hf; [simpl in Hi0; lia|].
  cbn [imap List.filter]. rewrite (Hf 0%nat a eq_refl).
  destruct i0 as [|i0]; cbn [Nat.eqb].
  - cbn [length]. f_equal.
    assert (∀ (h : nat → A → B),
              (∀ (i : nat) x, l !! i = Some x → f (h i x) = false) →
              List.filter f (imap h l) = []) as Hnone.
    { clear. induction l as [|a l IH]; intros h Hh; [done|].
      cbn [imap List.filter]. rewrite (Hh 0%nat a eq_refl).
      apply IH. intros i x Hx. apply (Hh (S i) x Hx). }
    rewrite Hnone; [done|]. intros i x Hx. apply (Hf (S i) x Hx).
  - apply (IH (g ∘ S) i0); [simpl in Hi0; lia|].
    intros i x Hx. apply (Hf (S i) x Hx).
Qed.

End BoxGeometry.

Section ChunkTiling.

Context (k : nat) (tensor_sizes : list Z) (n s : Z).
Hypothesis dim_size : tensor_sizes !! k = Some n.
Hypothesis n_nonneg : 0 ≤ n.
Hypothesis s_nonneg : 0 ≤ s.

Lemma chunk_descriptor_lookups (i : Z) p (j : nat) o z m :
  shard_offsets (chunk_descriptor k tensor_sizes n s i p) !! j = Some o →
  shard_sizes (chunk_descriptor k tensor_sizes n s i p) !! j = Some z →
  tensor_sizes !! j = Some m →
  (j = k ∧ o = s * i ∧ z = get_chunked_dim_size n s i ∧ m = n)
  ∨ (j ≠ k ∧ o = 0 ∧ z = m).
Proof.
  unfold chunk_descriptor. cbn [shard_offsets shard_sizes].
  intros Ho Hz Hm. pose proof (lookup_lt_Some _ _ _ Hm) as Hj.
  destruct (decide (j = k)) as [->|Hne].
  - left. rewrite list_lookup_insert_eq in Ho, Hz
      by (rewrite ?length_replicate; lia).
    rewrite dim_size in Hm. by injection Ho as <-; injection Hz as <-;
      injection Hm as <-.
  - right. rewrite list_lookup_insert_ne in Ho, Hz by done.
    apply lookup_replicate in Ho as [-> _]. rewrite Hm in Hz.
    by injection Hz as <-.
Qed.

Lemma chunk_descriptor_lengths (i : Z) p :
  length (shard_offsets (chunk_descriptor k tensor_sizes n s i p))
  = length tensor_sizes
  ∧ length (shard_sizes (chunk_descriptor k tensor_sizes n s i p))
    = length tensor_sizes.
Proof.
  unfold chunk_descriptor. cbn [shard_offsets shard_sizes].
  by rewrite !length_insert, length_replicate.
Qed.

(** An emitted descriptor lies within the tensor. *)
Lemma chunk_descriptor_within (i : nat) p :
  Z.of_nat i < ceil_div n s →
  within_shape (chunk_descriptor k tensor_sizes n s (Z.of_nat i) p)
    tensor_sizes = true.
Proof.
  intros Hi. apply within_shape_true.
  destruct (chunk_descriptor_lengths (Z.of_nat i) p) as [Hlo Hlz].
  split; [done|]. split; [done|]. intros j o z m Ho Hz Hm.
  destruct (chunk_descriptor_lookups _ _ _ _ _ _ Ho Hz Hm)
    as [(-> & -> & -> & ->)|(_ & -> & ->)]; [|lia].
  destruct (chunk_size_at_position n s n_nonneg s_nonneg i Hi) as [-> Hpos].
  split; [apply Z.mul_nonneg_nonneg|]; lia.
Qed.

(** A coordinate of the tensor lies in an emitted descriptor exactly
    when its component on the sharded dimension lies in the descriptor's
    slot of width [s]. *)
Lemma chunk_descriptor_in_box (c : list Z) (x : Z) (i : nat) p :
  in_shape c tensor_sizes = true →
  c !! k = Some x →
  Z.of_nat i < ceil_div n s →
  in_box c (chunk_descriptor k tensor_sizes n s (Z.of_nat i) p) = true
  ↔ s * Z.of_nat i ≤ x < s * Z.of_nat i + s.
Proof.
  intros Hc Hx Hi. apply in_shape_true in Hc as [Hlen Hc].
  destruct (Hc k x n Hx dim_size) as [Hx0 HxN].
  destruct (chunk_size_at_position n s n_nonneg s_nonneg i Hi) as [Hz Hpos].
  destruct (chunk_descriptor_lengths (Z.of_nat i) p) as [Hlo Hlz].
  pose proof (lookup_lt_Some _ _ _ dim_size) as Hk.
  rewrite in_box_true. split.
  - intros (_ & _ & Hall).
    destruct (lookup_lt_is_Some_2
                (shard_offsets (chunk_descriptor k tensor_sizes n s
                                  (Z.of_nat i) p)) k ltac:(lia)) as [o Ho].
    destruct (lookup_lt_is_Some_2
                (shard_sizes (chunk_descriptor k tensor_sizes n s
                                (Z.of_nat i) p)) k ltac:(lia)) as [z Hz'].
    specialize (Hall k x o z Hx Ho Hz').
    destruct (chunk_descriptor_lookups _ _ _ _ _ _ Ho Hz' dim_size)
      as [(_ & -> & -> & _)|(? & _)]; [|done].
    rewrite Hz in Hall. lia.
  - intros Hslot. split; [lia|]. split; [lia|]. intros j y o z Hy Ho Hz'.
    destruct (lookup_lt_is_Some_2 tensor_sizes j) as [m Hm].
    { apply lookup_lt_Some in Hy. lia. }
    destruct (chunk_descriptor_lookups _ _ _ _ _ _ Ho Hz' Hm)
      as [(-> & -> & -> & ->)|(_ & -> & ->)].
    + rewrite Hx in Hy. injection Hy as <-. rewrite Hz. lia.
    + destruct (Hc j y m Hy Hm). lia.
Qed.

Context (pls : list Placement).
Hypothesis enough_chunks : n ≤ Z.of_nat (length pls) * s.

(** Every coordinate of the tensor lies in exactly one descriptor. *)
Lemma chunk_descriptors_cover (c : list Z) :
  in_shape c tensor_sizes = true →
  cover_count (chunk_descriptors k tensor_sizes n s pls) c = 1%nat.
Proof.
  intros Hc. pose proof Hc as Hc'. apply in_shape_true in Hc' as [Hlen Hall].
  pose proof (lookup_lt_Some _ _ _ dim_size) as Hk.
  destruct (lookup_lt_is_Some_2 c k ltac:(lia)) as [x Hx].
  destruct (Hall k x n Hx dim_size) as [Hx0 HxN].
  assert (0 < s) as Hs.
  { destruct (Z.eq_dec s 0) as [E|]; [|lia]. rewrite E in enough_chunks. lia. }
  pose proof (Z.mul_div_le x s Hs) as Hq1.
  pose proof (Z.mul_succ_div_gt x s Hs) as Hq2.
  assert (0 ≤ x / s) as Hq0 by (apply Z.div_pos; lia).
  pose proof (ceil_div_bounds n s Hs) as [_ Hcs].
  assert (x / s < ceil_div n s) as Hqc.
  { destruct (Z_lt_ge_dec (x / s) (ceil_div n s)) as [|Hge]; [done|].
    assert (ceil_div n s * s ≤ x / s * s)
      by (apply Z.mul_le_mono_nonneg_r; lia). lia. }
  assert (x / s < Z.of_nat (length pls)) as HqK.
  { destruct (Z_lt_ge_dec (x / s) (Z.of_nat (length pls))) as [|Hge]; [done|].
    assert (Z.of_nat (length pls) * s ≤ x / s * s)
      by (apply Z.mul_le_mono_nonneg_r; lia). lia. }
  unfold cover_count. rewrite chunk_descriptors_prefix by done.
  apply filter_imap_unique with (Z.to_nat (x / s)).
  - rewrite length_take. lia.
  - intros i p Hp. apply lookup_take_Some in Hp as [_ Hi].
    apply eq_true_iff_eq.
    rewrite chunk_descriptor_in_box by (done || lia).
    rewrite Nat.eqb_eq. split.
    + intros [Hlo Hhi].
      destruct (Z.lt_total (Z.of_nat i) (x / s)) as [Hlt|[Heq|Hgt]]; [|lia|].
      * assert (s * (Z.of_nat i + 1) ≤ s * (x / s))
          by (apply Z.mul_le_mono_nonneg_l; lia). lia.
      * assert (s * (x / s + 1) ≤ s * Z.of_nat i)
          by (apply Z.mul_le_mono_nonneg_l; lia). lia.
    + intros ->. rewrite Z2Nat.id by done. lia.
Qed.

End ChunkTiling.

Lemma chunk_descriptors_tile (k : nat) (tensor_sizes : list Z) (n s : Z)
    (pls : list Placement) :
  tensor_sizes !! k = Some n → 0 ≤ n → 0 ≤ s →
  n ≤ Z.of_nat (length pls) * s →
  tiles_exactly (chunk_descriptors k tensor_sizes n s pls) tensor_sizes.
Proof.
  intros HN Hn Hs Henough. split.
  - intros sm Hsm. apply list_elem_of_lookup_1 in Hsm as [i Hsm].
    apply chunk_descriptors_at in Hsm as (p & _ & Hi & ->); [|done..].
    by apply chunk_descriptor_within.
  - intros c Hc. by apply chunk_descriptors_cover.
Qed.

(** X9. The descriptors that [build_metadata] returns tile the tensor
    exactly: each lies within the global shape, and every coordinate of
    the shape lies in exactly one of them. *)
Theorem build_metadata_tiles_exactly
    env h self tensor_sizes props pg d N md :
  dim self = DimInt d →
  - Z.of_nat (length tensor_sizes) ≤ d < Z.of_nat (length tensor_sizes) →
  tensor_sizes !! Z.to_nat (normalize_dim d (Z.of_nat (length tensor_sizes)))
  = Some N →
  0 ≤ N →
  build_metadata env h self tensor_sizes props pg = Ok md →
  tiles_exactly (shards_metadata md) tensor_sizes.
Proof.
  intros Hdim Hd HN Hnonneg Hbuild.
  destruct (build_metadata_Ok env h self tensor_sizes props pg d N
              Hdim Hd HN md Hbuild) as [Hpls ->].
  cbn [shards_metadata].
  pose proof (split_size_nonneg N (h !!! placements self) Hnonneg) as Hs.
  assert (0 < Z.of_nat (length (h !!! placements self))) as HK
    by (destruct (h !!! placements self); [done|simpl; lia]).
  pose proof (ceil_div_bounds N _ HK) as [_ Henough].
  apply chunk_descriptors_tile; [done..|lia].
Qed.

Lemma build_metadata_tiles_exactly_witness :
  tiles_exactly
    [mkShardMetadata [0; 0] [4; 2] (rank_dev 0);
     mkShardMetadata [4; 0] [4; 2] (rank_dev 1);
     mkShardMetadata [8; 0] [2; 2] (rank_dev 2)]
    [10; 2].
Proof.
  apply (build_metadata_tiles_exactly (env_of 0 4) (heap three_ranks)
           thirds_spec [10; 2] sample_props None 0 10
           (mkShardedTensorMetadata
              [mkShardMetadata [0; 0] [4; 2] (rank_dev 0);
               mkShardMetadata [4; 0] [4; 2] (rank_dev 1);
               mkShardMetadata [8; 0] [2; 2] (rank_dev 2)]
              [10; 2] sample_props)
           eq_refl ltac:(simpl; lia) eq_refl ltac:(lia)).
  vm_compute. reflexivity.
Defined.

(** ** The local tensors of [ChunkShardingSpec.shard] *)

Section NarrowLoop.

Context (tensor : Tensor) (offs szs : list Z).

Lemma py_getitem_nat {A} (l : list A) (j : nat) (x : A) :
  l !! j = Some x → py_getitem l (Z.of_nat j) = Ok x.
Proof.
  intros Hx. pose proof (lookup_lt_Some _ _ _ Hx) as Hj.
  unfold py_getitem, py_index.
  replace (0 <=? Z.of_nat j) with true by (symmetry; apply Z.leb_le; lia).
  replace (Z.of_nat j <? Z.of_nat (length l)) with true
    by (symmetry; apply Z.ltb_lt; lia).
  cbn [andb]. by rewrite Nat2Z.id, Hx.
Qed.

(** Dimensions on which the shard is as large as the tensor are passed
    over. *)
Lemma narrow_loop_skip (pre_z : list Z) :
  ∀ (seen pre_o tail : list Z) (rest : list (Z * Z)) local w,
    t_size tensor = seen ++ pre_z ++ tail →
    length pre_o = length pre_z →
    narrow_loop tensor offs szs (Z.of_nat (length seen))
      (zip pre_o pre_z ++ rest) local w
    = narrow_loop tensor offs szs (Z.of_nat (length seen + length pre_z))
        rest local w.
Proof.
  induction pre_z as [|z pre_z IH];
    intros seen pre_o tail rest local w Hsize Hlen.
  - destruct pre_o; [|done]. cbn [zip zip_with app length].
    by rewrite Nat.add_0_r.
  - destruct pre_o as [|o pre_o]; [done|].
    cbn [zip zip_with app narrow_loop]. unfold mbind' at 1, lift at 1.
    assert (tensor_size_at tensor (Z.of_nat (length seen)) = Ok z) as ->.
    { apply py_getitem_nat. rewrite Hsize.
      by rewrite lookup_app_r, Nat.sub_diag by lia. }
    rewrite Z.ltb_irrefl.
    replace (Z.of_nat (length seen) + 1)
      with (Z.of_nat (length (seen ++ [z])))
      by (rewrite length_app; simpl; lia).
    rewrite (IH (seen ++ [z]) pre_o tail).
    + f_equal. rewrite length_app. simpl. lia.
    + by rewrite <- app_assoc.
    + simpl in Hlen. lia.
Qed.

End NarrowLoop.

Section NarrowChunk.

Context (tensor : Tensor) (k : nat) (n o z : Z).
Hypothesis dim_size : t_size tensor !! k = Some n.
Hypothesis o_nonneg : 0 ≤ o.
Hypothesis z_nonneg : 0 ≤ z.
Hypothesis in_bounds : o + z ≤ n.

(** On a descriptor that differs from the tensor on dimension [k] only,
    the loop narrows that one dimension, once, when the shard is smaller
    there, and returns the tensor itself when it is not. The call to
    [narrow] is within bounds. *)
Lemma narrow_loop_chunk (w : World) :
  narrow_loop tensor
    (<[k := o]> (replicate (length (t_size tensor)) 0))
    (<[k := z]> (t_size tensor)) 0
    (zip (<[k := o]> (replicate (length (t_size tensor)) 0))
         (<[k := z]> (t_size tensor)))
    tensor w
  = if z <? n then
      (Ok (narrowed_copy tensor k o z (next_storage w)),
       mkWorld (heap w) (collectives w) (S (next_storage w)))
    else (Ok tensor, w).
Proof.
  pose proof (lookup_lt_Some _ _ _ dim_size) as Hk.
  set (sizes := t_size tensor) in *.
  set (offs := <[k := o]> (replicate (length sizes) 0)).
  set (szs := <[k := z]> sizes).
  assert (sizes = take k sizes ++ n :: drop (S k) sizes) as Hsplit
    by (by rewrite take_drop_middle).
  assert (length (take k sizes) = k) as Hpre by (rewrite length_take; lia).
  assert (szs = take k sizes ++ z :: drop (S k) sizes) as Hszs.
  { subst szs. rewrite Hsplit at 1.
    rewrite insert_app_r_alt by lia. by rewrite Hpre, Nat.sub_diag. }
  assert (offs = replicate k 0 ++ o :: replicate (length sizes - S k) 0)
    as Hoffs.
  { subst offs.
    replace (length sizes) with (k + S (length sizes - S k))%nat at 1 by lia.
    rewrite replicate_add. cbn [replicate].
    rewrite insert_app_r_alt by (rewrite length_replicate; lia).
    by rewrite length_replicate, Nat.sub_diag. }
  assert (zip offs szs
          = zip (replicate k 0) (take k sizes)
            ++ (o, z) :: zip (replicate (length sizes - S k) 0)
                           (drop (S k) sizes)) as ->.
  { rewrite Hoffs, Hszs.
    rewrite zip_with_app by (rewrite length_replicate; lia). done. }
  pose proof (narrow_loop_skip tensor offs szs (take k sizes) []
                (replicate k 0) (n :: drop (S k) sizes)) as Hskip.
  cbn [length app Nat.add Z.of_nat] in Hskip.
  rewrite Hskip by (by rewrite ?length_replicate).
  rewrite Hpre. cbn [narrow_loop]. unfold mbind' at 1, lift at 1.
  assert (tensor_size_at tensor (Z.of_nat k) = Ok n) as ->
    by (by apply py_getitem_nat).
  assert (∀ local w0,
            narrow_loop tensor offs szs (Z.of_nat k + 1)
              (zip (replicate (length sizes - S k) 0) (drop (S k) sizes))
              local w0 = (Ok local, w0)) as Htail.
  { intros local w0.
    pose proof (narrow_loop_skip tensor offs szs (drop (S k) sizes)
                  (take k sizes ++ [n])
                  (replicate (length sizes - S k) 0) [] [] local w0) as Ht.
    replace (Z.of_nat (length (take k sizes ++ [n]))) with (Z.of_nat k + 1)
      in Ht by (rewrite length_app, Hpre; simpl; lia).
    rewrite <- (app_nil_r (zip _ (drop (S k) sizes))).
    rewrite Ht; [done| |].
    - rewrite app_nil_r, <- app_assoc. done.
    - rewrite length_replicate, length_drop. done. }
  destruct (z <? n) eqn:Hlt; [|apply Htail].
  unfold mbind' at 1, lift at 1.
  assert (py_getitem offs (Z.of_nat k) = Ok o) as ->.
  { apply py_getitem_nat. subst offs.
    apply list_lookup_insert_eq. rewrite length_replicate. lia. }
  unfold mbind' at 1, lift at 1.
  assert (py_getitem szs (Z.of_nat k) = Ok z) as ->.
  { apply py_getitem_nat. subst szs. apply list_lookup_insert_eq. lia. }
  unfold mbind' at 1, lift at 1, narrow, py_index.
  fold sizes.
  replace (0 <=? Z.of_nat k) with true by (symmetry; apply Z.leb_le; lia).
  replace (Z.of_nat k <? Z.of_nat (length sizes)) with true
    by (symmetry; apply Z.ltb_lt; lia).
  cbn [andb]. rewrite Nat2Z.id, dim_size.
  replace (0 <=? o) with true by (symmetry; apply Z.leb_le; lia).
  replace (0 <=? z) with true by (symmetry; apply Z.leb_le; lia).
  replace (o + z <=? n) with true by (symmetry; apply Z.leb_le; lia).
  cbn [andb]. unfold mbind' at 1, clone. rewrite Htail. done.
Qed.

End NarrowChunk.

Section ShardLoop.

Context (_remote_device : string → result remote_device) (env : DistEnv)
  (pg : option ProcessGroup) (current_rank : Z) (tensor : Tensor).

Lemma set_requires_grad_Ok (t t' : Tensor) (b : bool) :
  set_requires_grad t b = Ok t' →
  t_storage t' = t_storage t ∧ t_size t' = t_size t
  ∧ t_elems t' = t_elems t ∧ t_requires_grad t' = b
  ∧ t_grad_fn t' = t_grad_fn t.
Proof.
  unfold set_requires_grad. destruct (negb _); [done|]. by intros [= <-].
Qed.

(** The gradient flag is written onto leaves only. *)
Lemma set_requires_grad_leaf (t t' : Tensor) (b : bool) :
  set_requires_grad t b = Ok t' → is_leaf t = true ∧ is_leaf t' = true.
Proof.
  unfold set_requires_grad. destruct (is_leaf t) eqn:Hleaf; [|done].
  intros [= <-]. split; [done|]. exact Hleaf.
Qed.

(** Whatever its outcome, the loop over the metadata leaves the heap and
    the collectives alone and only ever allocates. *)
Lemma shard_loop_effects (rest : list ShardMetadata) :
  ∀ acc w r w',
    shard_loop _remote_device env pg current_rank tensor rest acc w = (r, w') →
    heap w' = heap w ∧ collectives w' = collectives w
    ∧ (next_storage w ≤ next_storage w')%nat.
Proof.
  induction rest as [|meta rest IH]; intros acc w r w' Hrun.
  - by injection Hrun as <- <-.
  - cbn [shard_loop] in Hrun. unfold mbind' at 1, lift at 1 in Hrun.
    destruct (_parse_and_validate_remote_device _ _ _ _) as [rd|e];
      [|by injection Hrun as <- <-].
    cbv zeta in Hrun. destruct (rd.1 =? current_rank); [|by eapply IH].
    unfold mbind' at 1 in Hrun.
    destruct (narrow_loop _ _ _ _ _ _ _) as [[local|e] w1] eqn:Hnarrow;
      apply narrow_loop_result in Hnarrow as (Hh & Hc & Hn & _);
      [|injection Hrun as <- <-; by rewrite Hh, Hc].
    unfold mbind' at 1, lift at 1 in Hrun.
    destruct (set_requires_grad _ _) as [local'|e];
      [|injection Hrun as <- <-; by rewrite Hh, Hc].
    apply IH in Hrun as (Hh' & Hc' & Hn').
    rewrite Hh', Hc', Hh, Hc. repeat split; lia.
Qed.

(** What holds of every local tensor the loop can make holds of every
    shard the loop returns. *)
Lemma shard_loop_Forall (P : Shard → Prop) (w0 wfinal : World)
    (rest : list ShardMetadata) :
  (∀ meta w1 local w2 local',
     meta ∈ rest →
     (next_storage w0 ≤ next_storage w1)%nat →
     (next_storage w2 ≤ next_storage wfinal)%nat →
     narrow_loop tensor (shard_offsets meta) (shard_sizes meta) 0
       (zip (shard_offsets meta) (shard_sizes meta)) tensor w1
     = (Ok local, w2) →
     set_requires_grad local (t_requires_grad tensor) = Ok local' →
     P (mkShard local' meta)) →
  ∀ acc w ls,
    shard_loop _remote_device env pg current_rank tensor rest acc w
    = (Ok ls, wfinal) →
    (next_storage w0 ≤ next_storage w)%nat →
    Forall P acc →
    Forall P ls.
Proof.
  induction rest as [|meta rest IH]; intros Hstep acc w ls Hrun Hw Hacc.
  - by injection Hrun as <- <-.
  - cbn [shard_loop] in Hrun. unfold mbind' at 1, lift at 1 in Hrun.
    destruct (_parse_and_validate_remote_device _ _ _ _) as [rd|e];
      [|done].
    cbv zeta in Hrun.
    assert (∀ meta' w1 local w2 local',
              meta' ∈ rest →
              (next_storage w0 ≤ next_storage w1)%nat →
              (next_storage w2 ≤ next_storage wfinal)%nat →
              narrow_loop tensor (shard_offsets meta') (shard_sizes meta') 0
                (zip (shard_offsets meta') (shard_sizes meta')) tensor w1
              = (Ok local, w2) →
              set_requires_grad local (t_requires_grad tensor) = Ok local' →
              P (mkShard local' meta')) as Hstep'.
    { intros meta' w1 local w2 local' Hin. apply Hstep. by right. }
    destruct (rd.1 =? current_rank); [|by eapply (IH Hstep')].
    unfold mbind' at 1 in Hrun.
    destruct (narrow_loop _ _ _ _ _ _ _) as [[local|e] w1] eqn:Hnarrow;
      [|done].
    unfold mbind' at 1, lift at 1 in Hrun.
    destruct (set_requires_grad _ _) as [local'|e] eqn:Hflag; [|done].
    pose proof (narrow_loop_result _ _ _ _ _ _ _ _ _ Hnarrow)
      as (_ & _ & Hn & _).
    pose proof (shard_loop_effects _ _ _ _ _ Hrun) as (_ & _ & Hn').
    eapply (IH Hstep'); [exact Hrun|lia|].
    apply Forall_app. split; [done|]. constructor; [|done].
    eapply Hstep; [by left|exact Hw|exact Hn'|exact Hnarrow|exact Hflag].
Qed.

(** The loop goes through when every placement resolves, every
    descriptor is one of a chunk that is not empty, and the tensor is a
    leaf or every chunk is smaller than the dimension. *)
Lemma shard_loop_total (k : nat) (n s : Z) (rest : list ShardMetadata) :
  t_size tensor !! k = Some n →
  0 ≤ n → 0 ≤ s →
  is_leaf tensor = true ∨ s < n →
  Forall (fun meta =>
            is_ok (_parse_and_validate_remote_device _remote_device env pg
                     (placement meta)) = true
            ∧ ∃ (i : nat) p,
                Z.of_nat i < ceil_div n s
                ∧ meta = chunk_descriptor k (t_size tensor) n s
                           (Z.of_nat i) p) rest →
  ∀ acc w, ∃ ls w',
    shard_loop _remote_device env pg current_rank tensor rest acc w
    = (Ok ls, w').
Proof.
  intros HN Hn Hs Hflag.
  induction rest as [|meta rest IH]; intros Hall acc w; [by eexists _, _|].
  apply Forall_cons in Hall as [[Hparse (i & p & Hi & ->)] Hall].
  cbn [shard_loop]. unfold mbind' at 1, lift at 1.
  destruct (_parse_and_validate_remote_device _ _ _ _) as [rd|e]; [|done].
  cbv zeta. destruct (rd.1 =? current_rank); [|by apply IH].
  destruct (chunk_size_at_position n s Hn Hs i Hi) as [Hz Hpos].
  unfold chunk_descriptor. cbn [shard_offsets shard_sizes].
  unfold mbind' at 1.
  assert (0 ≤ s * Z.of_nat i) as Ho by (apply Z.mul_nonneg_nonneg; lia).
  rewrite (narrow_loop_chunk tensor k n (s * Z.of_nat i)
             (get_chunked_dim_size n s (Z.of_nat i)) HN Ho
             ltac:(rewrite Hz; lia) ltac:(rewrite Hz; lia)).
  destruct (Z.ltb_spec (get_chunked_dim_size n s (Z.of_nat i)) n)
    as [Hlt|Hge].
  - unfold mbind' at 1, lift at 1, set_requires_grad, narrowed_copy, is_leaf.
    cbn [t_grad_fn negb andb]. by apply IH.
  - unfold mbind' at 1, lift at 1, set_requires_grad.
    destruct Hflag as [-> | Hsmall]; [by apply IH|].
    pose proof (get_chunked_dim_size_le n s (Z.of_nat i) Hs). lia.
Qed.

End ShardLoop.

Section ShardOutcome.

Context (_remote_device : string → result remote_device) (env : DistEnv)
  (self : ChunkShardingSpec) (tensor : Tensor) (src : Z)
  (pg : option ProcessGroup) (w : World).

Let props : TensorProperties :=
  mkTensorProperties (t_dtype tensor) (t_layout tensor)
    (t_requires_grad tensor) "contiguous_format" (t_pinned tensor).

Let w_broadcast : World :=
  mkWorld (heap w)
    (collectives w ++ [Broadcast (t_storage tensor) src pg])
    (next_storage w).

Let after_init (ls : list Shard) (w1 : World) : World :=
  world_after_init env ls (t_size tensor) pg w1.

(** [shard] is [build_metadata], then the broadcast, then the loop, then
    the handle constructor; each of the four can raise. *)
Lemma shard_unfold :
  shard _remote_device env self tensor src pg w
  = match build_metadata env (heap w) self (t_size tensor) props pg with
    | Raise e => (Raise e, w)
    | Ok md =>
        match broadcast_failure env src pg with
        | Some e => (Raise e, w_broadcast)
        | None =>
            match shard_loop _remote_device env pg (get_rank env pg)
                    (after_broadcast env tensor src) (shards_metadata md) []
                    w_broadcast with
            | (Raise e, w1) => (Raise e, w1)
            | (Ok ls, w1) =>
                match init_failure env ls (t_size tensor) pg with
                | Some e => (Raise e, after_init ls w1)
                | None =>
                    (Ok (mkShardedTensor ls (t_size tensor) pg (Some self)),
                     after_init ls w1)
                end
            end
        end
    end.
Proof.
  unfold shard, mbind', read_heap, lift, broadcast,
    _init_from_local_shards, mret. fold props.
  destruct (build_metadata _ _ _ _ _ _) as [md|e]; [|done].
  fold w_broadcast. fold (after_broadcast env tensor src).
  destruct (broadcast_failure env src pg); [done|].
  destruct (shard_loop _ _ _ _ _ _ _ _) as [[ls|e] w1]; [|done].
  cbn [t_size after_broadcast].
  by destruct (init_failure env ls (t_size tensor) pg).
Qed.

(** Every local shard of a completed [shard]: its descriptor is the one
    of a non-empty chunk, and its tensor is the broadcast tensor narrowed
    to that chunk and copied, or the broadcast tensor itself when the
    chunk is the whole dimension. *)
Lemma shard_local_shards d n handle w' :
  dim self = DimInt d →
  - Z.of_nat (length (t_size tensor)) ≤ d
    < Z.of_nat (length (t_size tensor)) →
  let k := Z.to_nat (normalize_dim d (Z.of_nat (length (t_size tensor)))) in
  let s := ceil_div n (Z.of_nat (length (heap w !!! placements self))) in
  t_size tensor !! k = Some n →
  0 ≤ n →
  shard _remote_device env self tensor src pg w = (Ok handle, w') →
  Forall (fun sh =>
            ∃ (i : nat) p (storage : nat) local,
              Z.of_nat i < ceil_div n s
              ∧ sh_metadata sh
                = chunk_descriptor k (t_size tensor) n s (Z.of_nat i) p
              ∧ set_requires_grad local (t_requires_grad tensor)
                = Ok (sh_tensor sh)
              ∧ ((get_chunked_dim_size n s (Z.of_nat i) < n
                  ∧ local = narrowed_copy (after_broadcast env tensor src) k
                              (s * Z.of_nat i)
                              (get_chunked_dim_size n s (Z.of_nat i)) storage
                  ∧ (next_storage w ≤ storage < next_storage w')%nat)
                 ∨ (get_chunked_dim_size n s (Z.of_nat i) = n
                    ∧ i = 0%nat
                    ∧ local = after_broadcast env tensor src)))
    (st_local_shards handle).
Proof.
  intros Hdim Hd k s HN Hn Hrun. rewrite shard_unfold in Hrun.
  destruct (build_metadata _ _ _ _ _ _) as [md|e] eqn:Hbuild; [|done].
  destruct (build_metadata_Ok env (heap w) self (t_size tensor) props pg d n
              Hdim Hd HN md Hbuild) as [Hpls ->].
  cbn [shards_metadata] in Hrun. fold k s in Hrun.
  pose proof (split_size_nonneg n (heap w !!! placements self) Hn) as Hs.
  fold s in Hs.
  destruct (broadcast_failure env src pg); [done|].
  destruct (shard_loop _ _ _ _ _ _ _ _) as [[ls|e] wend] eqn:Hloop; [|done].
  destruct (init_failure env ls (t_size tensor) pg); [done|].
  injection Hrun as <- <-.
  cbn [st_local_shards after_init world_after_init next_storage].
  eapply (shard_loop_Forall _ _ _ _ _ _ w_broadcast wend);
    [|exact Hloop|done..].
  intros meta w1 local w2 local' Hin Hw1 Hw2 Hnarrow Hflag.
  apply list_elem_of_lookup_1 in Hin as [i Hin].
  apply chunk_descriptors_at in Hin as (p & _ & Hi & ->); [|done..].
  destruct (chunk_size_at_position n s Hn Hs i Hi) as [Hz Hpos].
  assert (0 ≤ s * Z.of_nat i) as Ho by (apply Z.mul_nonneg_nonneg; lia).
  unfold chunk_descriptor in Hnarrow. cbn [shard_offsets shard_sizes] in Hnarrow.
  change (t_size tensor) with (t_size (after_broadcast env tensor src))
    in Hnarrow.
  rewrite (narrow_loop_chunk (after_broadcast env tensor src) k n
             (s * Z.of_nat i) (get_chunked_dim_size n s (Z.of_nat i))
             HN Ho ltac:(rewrite Hz; lia) ltac:(rewrite Hz; lia)) in Hnarrow.
  exists i, p, (next_storage w1), local. cbn [sh_metadata sh_tensor].
  split; [done|]. split; [done|]. split; [done|].
  destruct (Z.ltb_spec (get_chunked_dim_size n s (Z.of_nat i)) n)
    as [Hlt|Hge]; injection Hnarrow as <- <-.
  - left. split; [done|]. split; [done|].
    unfold w_broadcast in Hw1. cbn [next_storage] in *. lia.
  - right. split; [rewrite Hz in *; lia|]. split; [|done].
    rewrite Hz in Hge.
    destruct i as [|i]; [done|].
    assert (1 * s ≤ Z.of_nat (S i) * s)
      by (apply Z.mul_le_mono_nonneg_r; lia). lia.
Qed.

End ShardOutcome.

(** ** What a rank keeps *)

(** Metadata is built for an integer dimension in range only. *)
Lemma build_metadata_Ok_dim env h self tensor_sizes props pg md :
  build_metadata env h self tensor_sizes props pg = Ok md →
  ∃ d n,
    dim self = DimInt d
    ∧ - Z.of_nat (length tensor_sizes) ≤ d < Z.of_nat (length tensor_sizes)
    ∧ tensor_sizes
        !! Z.to_nat (normalize_dim d (Z.of_nat (length tensor_sizes)))
      = Some n.
Proof.
  unfold build_metadata.
  destruct (dim self) as [d|name|] eqn:Hdim; cbn [_verify_dim rbind];
    try done.
  destruct (_ || _) eqn:Hrange; [done|]. intros _.
  apply orb_false_iff in Hrange as [Hhi Hlo].
  rewrite Z.geb_leb in Hhi. apply Z.leb_gt in Hhi. apply Z.ltb_ge in Hlo.
  destruct (py_getitem_in_range tensor_sizes d ltac:(lia)) as (n & Hn & _).
  by exists d, n.
Qed.

(** A split size that is not positive leaves every chunk empty, so no
    descriptor is emitted. *)
Lemma chunk_descriptors_empty k tensor_sizes n s (pls : list Placement) :
  s ≤ 0 → chunk_descriptors k tensor_sizes n s pls = [].
Proof.
  intros Hs. unfold chunk_descriptors.
  assert (∀ i, (0 <? get_chunked_dim_size n s i) = false) as Hempty.
  { intros i. apply Z.ltb_ge. unfold get_chunked_dim_size. lia. }
  assert (∀ (f : nat → Placement → list ShardMetadata),
            (∀ i p, f i p = []) → mjoin (imap f pls) = []) as Hnil.
  { induction pls as [|p pls IH]; intros f Hf; [done|].
    cbn [imap mjoin list_join]. rewrite Hf. cbn [app].
    apply IH. intros i q. apply Hf. }
  apply Hnil. intros i p. by rewrite Hempty.
Qed.

(** The offsets of a descriptor are zero except on the sharded
    dimension, so adding them to a coordinate shifts that one entry. *)
Lemma zip_with_add_offsets (k : nat) (o : Z) (c : list Z) :
  zip_with Z.add (<[k := o]> (replicate (length c) 0)) c
  = alter (Z.add o) k c.
Proof.
  apply list_eq. intros j. rewrite lookup_zip_with, list_lookup_alter.
  destruct (decide (k = j)) as [<-|Hne].
  - destruct (c !! k) as [x|] eqn:Hc.
    + rewrite list_lookup_insert_eq
        by (rewrite length_replicate; by eapply lookup_lt_Some).
      done.
    + cbn. by destruct (<[k:=o]> (replicate (length c) 0) !! k).
  - rewrite list_lookup_insert_ne by done.
    destruct (c !! j) as [x|] eqn:Hc.
    + rewrite lookup_replicate_2 by (by eapply lookup_lt_Some). done.
    + cbn. by destruct (replicate (length c) 0 !! j).
Qed.

Section LocalContent.

Context (_remote_device : string → result remote_device) (env : DistEnv)
  (self : ChunkShardingSpec) (tensor : Tensor) (src : Z)
  (pg : option ProcessGroup) (w : World).

(** Every local tensor of a completed [shard] has the sizes of its
    descriptor and holds, at a coordinate of the tensor's rank, the
    element the source rank broadcast at that coordinate shifted by the
    descriptor's offsets. *)
Lemma shard_local_content handle w' :
  shard _remote_device env self tensor src pg w = (Ok handle, w') →
  Forall (fun sh =>
            t_size (sh_tensor sh) = shard_sizes (sh_metadata sh)
            ∧ ∀ c, length c = length (t_size tensor) →
                t_elems (sh_tensor sh) c
                = broadcast_payload env src
                    (zip_with Z.add (shard_offsets (sh_metadata sh)) c))
    (st_local_shards handle).
Proof.
  intros Hrun.
  destruct (shard_Ok _ _ _ _ _ _ _ _ _ Hrun) as (md & Hmd & Hown & _).
  destruct (build_metadata_Ok_dim _ _ _ _ _ _ _ Hmd)
    as (d & n & Hdim & Hd & HN).
  destruct (Z_le_gt_dec 0 n) as [Hn|Hneg].
  - pose proof (shard_local_shards _remote_device env self tensor src pg w
                  d n handle w' Hdim Hd HN Hn Hrun) as Hall.
    cbv zeta in Hall. eapply Forall_impl; [exact Hall|]. clear Hall.
    intros sh (i & p & storage & local & Hi & -> & Hflag & Hcase).
    apply set_requires_grad_Ok in Hflag as (_ & -> & -> & _).
    pose proof (lookup_lt_Some _ _ _ HN) as Hk.
    unfold chunk_descriptor. cbn [shard_offsets shard_sizes].
    destruct Hcase as [(_ & -> & _)|(Hz & -> & ->)].
    + split; [done|]. intros c <-. cbn [t_elems narrowed_copy after_broadcast].
      by rewrite zip_with_add_offsets.
    + rewrite Hz. cbn [t_size t_elems after_broadcast].
      split; [by rewrite list_insert_id|]. intros c <-.
      change (Z.of_nat 0) with 0. rewrite Z.mul_0_r, zip_with_add_offsets.
      by rewrite list_alter_id.
  - destruct (build_metadata_Ok env (heap w) self (t_size tensor) _ pg d n
                Hdim Hd HN md Hmd) as [Hpls ->].
    cbn [shards_metadata] in Hown.
    rewrite chunk_descriptors_empty in Hown.
    + apply fmap_nil_inv in Hown. by rewrite Hown.
    + destruct (heap w !!! placements self) as [|p pls]; [done|].
      unfold ceil_div.
      assert (0 ≤ - n / Z.of_nat (length (p :: pls)))
        by (apply Z.div_pos; simpl; lia).
      lia.
Qed.

End LocalContent.

(** C1. When [ChunkShardingSpec.shard] completes on a rank, the handle
    it returns holds exactly the shards of the metadata whose placement
    resolves to that rank, in metadata order, and none that resolves to
    another rank. What it holds of each is the shard itself: the local
    tensor has the sizes of the descriptor and reads, at every coordinate
    of the tensor's rank, the element that the source rank broadcast at
    that coordinate shifted by the descriptor's offsets. Any other rank of
    the same group that runs the same spec (same placements) on a tensor
    of the same shape classifies the very same metadata list with the
    very same resolution, keeping the shards of its own rank: the
    assignment depends on the spec and the shape only. *)
Theorem shard_keeps_exactly_own_shards
    _remote_device env self tensor src pg w handle w' :
  shard _remote_device env self tensor src pg w = (Ok handle, w') →
  ∃ md,
    build_metadata env (heap w) self (t_size tensor)
      (mkTensorProperties (t_dtype tensor) (t_layout tensor)
         (t_requires_grad tensor) "contiguous_format" (t_pinned tensor))
      pg = Ok md
    ∧ sh_metadata <$> st_local_shards handle
      = List.filter (assigned_to _remote_device env pg (get_rank env pg))
          (shards_metadata md)
    ∧ Forall (fun s => is_Some (resolved_rank _remote_device env pg s))
        (shards_metadata md)
    ∧ Forall (fun sh =>
                t_size (sh_tensor sh) = shard_sizes (sh_metadata sh)
                ∧ ∀ c, length c = length (t_size tensor) →
                    t_elems (sh_tensor sh) c
                    = broadcast_payload env src
                        (zip_with Z.add (shard_offsets (sh_metadata sh)) c))
        (st_local_shards handle)
    ∧ ∀ env2 tensor2 src2 w2 handle2 w2',
        heap w2 !!! placements self = heap w !!! placements self →
        t_size tensor2 = t_size tensor →
        get_world_size env2 pg = get_world_size env pg →
        shard _remote_device env2 self tensor2 src2 pg w2
        = (Ok handle2, w2') →
        sh_metadata <$> st_local_shards handle2
        = List.filter (assigned_to _remote_device env pg (get_rank env2 pg))
            (shards_metadata md).
Proof.
  intros Hrun.
  destruct (shard_Ok _ _ _ _ _ _ _ _ _ Hrun) as (md & Hmd & Hown & Hall).
  pose proof (shard_local_content _ _ _ _ _ _ _ _ _ Hrun) as Hcontent.
  exists md. split; [done|]. split; [done|]. split; [done|].
  split; [done|].
  intros env2 tensor2 src2 w2 handle2 w2' Hheap Hsize Hgroup Hrun2.
  destruct (shard_Ok _ _ _ _ _ _ _ _ _ Hrun2) as (md2 & Hmd2 & Hown2 & _).
  rewrite Hsize in Hmd2.
  match type of Hmd with
  | build_metadata _ _ _ _ ?props _ = _ =>
      rewrite (build_metadata_shards_indep env env2 (heap w) (heap w2) self
                 (t_size tensor) props _ pg pg Hheap), Hmd in Hmd2
  end.
  injection Hmd2 as <-. rewrite Hown2. cbn [shards_metadata].
  clear -Hgroup. induction (shards_metadata md) as [|s l IH]; [done|].
  cbn [List.filter].
  by rewrite IH, (assigned_to_same_group _ env env2 pg _ s Hgroup).
Qed.

Lemma shard_keeps_exactly_own_shards_witness :
  sh_metadata <$> st_local_shards
    (handle_of (shard no_strings (env_of 1 4) rows_spec
                  (tensor_of 7 [8; 4] false None) 0 None four_ranks))
  = [mkShardMetadata [2; 0] [2; 4] (rank_dev 1)]
  ∧ Forall (fun sh =>
              t_size (sh_tensor sh) = shard_sizes (sh_metadata sh)
              ∧ ∀ c, length c = 2%nat →
                  t_elems (sh_tensor sh) c
                  = broadcast_payload (env_of 1 4) 0
                      (zip_with Z.add (shard_offsets (sh_metadata sh)) c))
      (st_local_shards
         (handle_of (shard no_strings (env_of 1 4) rows_spec
                       (tensor_of 7 [8; 4] false None) 0 None four_ranks))).
Proof.
  destruct (shard_keeps_exactly_own_shards no_strings (env_of 1 4) rows_spec
              (tensor_of 7 [8; 4] false None) 0 None four_ranks
              (handle_of (shard no_strings (env_of 1 4) rows_spec
                            (tensor_of 7 [8; 4] false None) 0 None four_ranks))
              (snd (shard no_strings (env_of 1 4) rows_spec
                      (tensor_of 7 [8; 4] false None) 0 None four_ranks))
              ltac:(vm_compute; reflexivity))
    as (md & Hmd & Hown & _ & Hcontent & _).
  split; [|exact Hcontent].
  rewrite Hown. vm_compute in Hmd. injection Hmd as <-.
  vm_compute. reflexivity.
Defined.

(** X10. What a call of [shard] does to the world, whatever its outcome.
    It never changes the caller's placements list and it only allocates.
    It issues no collective when metadata building fails. When metadata
    building succeeds, the broadcast of the tensor from the source rank is
    the first collective it issues, also when the call fails afterwards,
    and whatever follows the broadcast was issued by the handle
    constructor. A handle it returns records the tensor's shape, the
    process group and the spec, and then the collectives are the
    broadcast followed by those of the constructor on the handle's local
    shards. *)
Theorem shard_effects _remote_device env self tensor src pg w r w' :
  shard _remote_device env self tensor src pg w = (r, w') →
  heap w' = heap w
  ∧ (next_storage w ≤ next_storage w')%nat
  ∧ (∃ later,
       collectives w'
       = collectives w
         ++ (if is_ok (build_metadata env (heap w) self (t_size tensor)
                         (mkTensorProperties (t_dtype tensor)
                            (t_layout tensor) (t_requires_grad tensor)
                            "contiguous_format" (t_pinned tensor)) pg)
             then Broadcast (t_storage tensor) src pg :: later else [])
       ∧ (later = []
          ∨ ∃ local_shards,
              later = init_collectives env local_shards (t_size tensor) pg))
  ∧ ∀ handle, r = Ok handle →
      st_size handle = t_size tensor
      ∧ st_process_group handle = pg
      ∧ _sharding_spec handle = Some self
      ∧ collectives w'
        = collectives w
          ++ Broadcast (t_storage tensor) src pg
             :: init_collectives env (st_local_shards handle)
                  (t_size tensor) pg.
Proof.
  rewrite shard_unfold. cbv zeta.
  destruct (build_metadata _ _ _ _ _ _) as [md|e]; cbn [is_ok].
  - destruct (broadcast_failure env src pg).
    { intros [= <- <-]. cbn [heap collectives next_storage].
      split; [done|]. split; [done|]. split; [|done].
      exists []. split; [done|by left]. }
    destruct (shard_loop _ _ _ _ _ _ _ _) as [[ls|e] wend] eqn:Hloop;
      apply shard_loop_effects in Hloop as (Hh & Hc & Hn);
      cbn [heap collectives next_storage] in *.
    + assert (collectives (world_after_init env ls (t_size tensor) pg wend)
              = collectives w
                ++ Broadcast (t_storage tensor) src pg
                   :: init_collectives env ls (t_size tensor) pg) as Hall.
      { unfold world_after_init. cbn [collectives].
        by rewrite Hc, <- app_assoc. }
      destruct (init_failure env ls (t_size tensor) pg);
        intros [= <- <-]; cbn [world_after_init heap next_storage];
        (split; [done|]); (split; [done|]);
        (split; [exists (init_collectives env ls (t_size tensor) pg);
                 split; [exact Hall|right; by exists ls]|]).
      * done.
      * by intros handle [= <-].
    + intros [= <- <-]. split; [done|]. split; [done|]. split; [|done].
      exists []. split; [done|by left].
  - intros [= <- <-]. split; [done|]. split; [done|]. split; [|done].
    exists []. rewrite app_nil_r. split; [done|by left].
Qed.

Lemma shard_effects_witness :
  heap (snd (shard no_strings (env_of 1 4) rows_spec
               (tensor_of 7 [8; 4] false None) 0 None four_ranks))
  = heap four_ranks
  ∧ collectives
      (snd (shard no_strings (env_of 1 4) rows_spec
              (tensor_of 7 [8; 4] false None) 0 None four_ranks))
    = [Broadcast 7 0 None; AllGatherObject None].
Proof.
  destruct (shard_effects no_strings (env_of 1 4) rows_spec
              (tensor_of 7 [8; 4] false None) 0 None four_ranks
              (Ok (handle_of (shard no_strings (env_of 1 4) rows_spec
                                (tensor_of 7 [8; 4] false None) 0 None
                                four_ranks)))
              (snd (shard no_strings (env_of 1 4) rows_spec
                      (tensor_of 7 [8; 4] false None) 0 None four_ranks))
              ltac:(vm_compute; reflexivity))
    as (Hh & _ & _ & Hhandle).
  split; [exact Hh|].
  destruct (Hhandle _ eq_refl) as (_ & _ & _ & Hc).
  rewrite Hc. vm_compute. reflexivity.
Defined.

(** X11. Every local shard of a completed [shard] holds the data of its
    descriptor: its tensor has the sizes of the descriptor, carries the
    gradient flag of the tensor passed in, and reads, at a coordinate
    [c], the element the source rank broadcast at [c] shifted by the
    descriptor's offset on the sharded dimension. *)
Theorem shard_local_tensor_content
    _remote_device env self tensor src pg w d N handle w' :
  dim self = DimInt d →
  - Z.of_nat (length (t_size tensor)) ≤ d
    < Z.of_nat (length (t_size tensor)) →
  let dimIndex :=
    Z.to_nat (normalize_dim d (Z.of_nat (length (t_size tensor)))) in
  t_size tensor !! dimIndex = Some N →
  0 ≤ N →
  shard _remote_device env self tensor src pg w = (Ok handle, w') →
  Forall (fun sh =>
            t_size (sh_tensor sh) = shard_sizes (sh_metadata sh)
            ∧ t_requires_grad (sh_tensor sh) = t_requires_grad tensor
            ∧ ∃ o, shard_offsets (sh_metadata sh) !! dimIndex = Some o
                ∧ ∀ c, t_elems (sh_tensor sh) c
                       = broadcast_payload env src
                           (alter (Z.add o) dimIndex c))
    (st_local_shards handle).
Proof.
  intros Hdim Hd dimIndex HN Hn Hrun.
  pose proof (shard_local_shards _remote_device env self tensor src pg w
                d N handle w' Hdim Hd HN Hn Hrun) as Hall.
  cbv zeta in Hall. fold dimIndex in Hall.
  eapply Forall_impl; [exact Hall|]. clear Hall.
  intros sh (i & p & storage & local & Hi & -> & Hflag & Hcase).
  apply set_requires_grad_Ok in Hflag as (_ & -> & -> & -> & _).
  pose proof (lookup_lt_Some _ _ _ HN) as Hk.
  unfold chunk_descriptor. cbn [shard_offsets shard_sizes].
  destruct Hcase as [(_ & -> & _)|(Hz & -> & ->)].
  - split; [done|]. split; [done|]. eexists. split; [|done].
    apply list_lookup_insert_eq. by rewrite length_replicate.
  - rewrite Hz. cbn [t_size t_elems after_broadcast].
    split; [by rewrite list_insert_id|]. split; [done|].
    exists 0. split.
    + rewrite Z.mul_0_r. apply list_lookup_insert_eq.
      by rewrite length_replicate.
    + intros c. by rewrite list_alter_id.
Qed.

Lemma shard_local_tensor_content_witness :
  Forall (fun sh =>
            t_size (sh_tensor sh) = shard_sizes (sh_metadata sh)
            ∧ t_requires_grad (sh_tensor sh) = false
            ∧ ∃ o, shard_offsets (sh_metadata sh) !! 0%nat = Some o
                ∧ ∀ c, t_elems (sh_tensor sh) c
                       = broadcast_payload (env_of 1 4) 0
                           (alter (Z.add o) 0%nat c))
    (st_local_shards
       (handle_of (shard no_strings (env_of 1 4) rows_spec
                     (tensor_of 7 [8; 4] false None) 0 None four_ranks))).
Proof.
  apply (shard_local_tensor_content no_strings (env_of 1 4) rows_spec
           (tensor_of 7 [8; 4] false None) 0 None four_ranks 0 8
           (handle_of (shard no_strings (env_of 1 4) rows_spec
                         (tensor_of 7 [8; 4] false None) 0 None four_ranks))
           (snd (shard no_strings (env_of 1 4) rows_spec
                   (tensor_of 7 [8; 4] false None) 0 None four_ranks)));
    [reflexivity|simpl; lia|reflexivity|lia|vm_compute; reflexivity].
Defined.

(** X12. The local tensors of a completed [shard] on a tensor that was
    allocated before the call. Each is a leaf of the autograd graph. One
    that is smaller than the tensor is a copy: it shares storage neither
    with the tensor passed in, which is the broadcast buffer, nor with
    any tensor that existed before the call. Only a shard as large as the
    tensor shares the storage of the tensor passed in. *)
Theorem shard_copies_smaller_shards
    _remote_device env self tensor src pg w d N handle w' :
  dim self = DimInt d →
  - Z.of_nat (length (t_size tensor)) ≤ d
    < Z.of_nat (length (t_size tensor)) →
  t_size tensor
    !! Z.to_nat (normalize_dim d (Z.of_nat (length (t_size tensor))))
  = Some N →
  0 ≤ N →
  (t_storage tensor < next_storage w)%nat →
  shard _remote_device env self tensor src pg w = (Ok handle, w') →
  Forall (fun sh =>
            is_leaf (sh_tensor sh) = true
            ∧ ((smaller_than (shard_sizes (sh_metadata sh)) (t_size tensor)
                ∧ shares_storage (sh_tensor sh) tensor = false
                ∧ ∀ old, (t_storage old < next_storage w)%nat →
                    shares_storage (sh_tensor sh) old = false)
               ∨ (shard_sizes (sh_metadata sh) = t_size tensor
                  ∧ shares_storage (sh_tensor sh) tensor = true)))
    (st_local_shards handle).
Proof.
  intros Hdim Hd HN Hn Hold Hrun.
  pose proof (shard_local_shards _remote_device env self tensor src pg w
                d N handle w' Hdim Hd HN Hn Hrun) as Hall.
  cbv zeta in Hall. eapply Forall_impl; [exact Hall|]. clear Hall.
  intros sh (i & p & storage & local & Hi & -> & Hflag & Hcase).
  pose proof (set_requires_grad_leaf _ _ _ Hflag) as [_ Hleaf].
  apply set_requires_grad_Ok in Hflag as (Hst & _ & _ & _ & Hgrad).
  split; [exact Hleaf|].
  pose proof (lookup_lt_Some _ _ _ HN) as Hk.
  unfold chunk_descriptor, shares_storage. cbn [shard_sizes]. rewrite Hst.
  destruct Hcase as [(Hlt & -> & Hfresh)|(Hz & _ & ->)].
  - left. cbn [t_storage narrowed_copy]. split; [|split].
    + eexists _, _, N. split; [|done]. by apply list_lookup_insert_eq.
    + apply Nat.eqb_neq. lia.
    + intros old Hbefore. apply Nat.eqb_neq. lia.
  - right. rewrite Hz. cbn [t_storage after_broadcast].
    split; [by rewrite list_insert_id|apply Nat.eqb_refl].
Qed.

Lemma shard_copies_smaller_shards_witness :
  Forall (fun sh =>
            is_leaf (sh_tensor sh) = true
            ∧ ((smaller_than (shard_sizes (sh_metadata sh)) [8; 4]
                ∧ shares_storage (sh_tensor sh)
                    (tensor_of 7 [8; 4] true (Some "MulBackward"%string))
                  = false
                ∧ ∀ old, (t_storage old < 100)%nat →
                    shares_storage (sh_tensor sh) old = false)
               ∨ (shard_sizes (sh_metadata sh) = [8; 4]
                  ∧ shares_storage (sh_tensor sh)
                      (tensor_of 7 [8; 4] true (Some "MulBackward"%string))
                    = true)))
    (st_local_shards
       (handle_of (shard no_strings (env_of 1 4) rows_spec
                     (tensor_of 7 [8; 4] true (Some "MulBackward"%string))
                     0 None four_ranks))).
Proof.
  apply (shard_copies_smaller_shards no_strings (env_of 1 4) rows_spec
           (tensor_of 7 [8; 4] true (Some "MulBackward"%string))
           0 None four_ranks 0 8
           (handle_of (shard no_strings (env_of 1 4) rows_spec
                         (tensor_of 7 [8; 4] true
                            (Some "MulBackward"%string))
                         0 None four_ranks))
           (snd (shard no_strings (env_of 1 4) rows_spec
                   (tensor_of 7 [8; 4] true (Some "MulBackward"%string))
                   0 None four_ranks)));
    [reflexivity|simpl; lia|reflexivity|lia|simpl; lia
    |vm_compute; reflexivity].
Defined.

(** X13. The loop of [shard] never fails on the shards it slices. Let
    the sharding dimension be in range, let there be a placement, let the
    placements of the chunks that are not empty resolve in the group, let
    the tensor be a leaf or the split size smaller than the dimension,
    and let the broadcast complete. Then the loop over the metadata
    completes: every call to [narrow] is within bounds and every write of
    the gradient flag is accepted. The call hands the local shards to the
    handle constructor, and its outcome is the constructor's: the handle,
    or the exception the constructor raises. A placement whose chunk is
    empty is never looked at, so it may name a rank the group does not
    have. *)
Theorem shard_succeeds _remote_device env self tensor src pg w d N :
  dim self = DimInt d →
  - Z.of_nat (length (t_size tensor)) ≤ d
    < Z.of_nat (length (t_size tensor)) →
  t_size tensor
    !! Z.to_nat (normalize_dim d (Z.of_nat (length (t_size tensor))))
  = Some N →
  0 ≤ N →
  heap w !!! placements self ≠ [] →
  (∀ (i : nat) p,
     (heap w !!! placements self) !! i = Some p →
     Z.of_nat i
     < ceil_div N
         (ceil_div N (Z.of_nat (length (heap w !!! placements self)))) →
     is_ok (_parse_and_validate_remote_device _remote_device env pg p)
     = true) →
  is_leaf tensor = true
  ∨ ceil_div N (Z.of_nat (length (heap w !!! placements self))) < N →
  broadcast_failure env src pg = None →
  ∃ local_shards w1,
    shard_loop _remote_device env pg (get_rank env pg)
      (after_broadcast env tensor src)
      (chunk_descriptors
         (Z.to_nat (normalize_dim d (Z.of_nat (length (t_size tensor)))))
         (t_size tensor) N
         (ceil_div N (Z.of_nat (length (heap w !!! placements self))))
         (heap w !!! placements self))
      []
      (mkWorld (heap w)
         (collectives w ++ [Broadcast (t_storage tensor) src pg])
         (next_storage w))
    = (Ok local_shards, w1)
    ∧ shard _remote_device env self tensor src pg w
      = (match init_failure env local_shards (t_size tensor) pg with
         | Some e => Raise e
         | None =>
             Ok (mkShardedTensor local_shards (t_size tensor) pg (Some self))
         end,
         world_after_init env local_shards (t_size tensor) pg w1).
Proof.
  intros Hdim Hd HN Hn Hpls Hvalid Hflag Hsent. rewrite shard_unfold.
  cbv zeta.
  rewrite (build_metadata_nonempty env (heap w) self (t_size tensor) _ pg d N
             Hdim Hd HN Hpls).
  rewrite Hsent. cbn [shards_metadata].
  pose proof (split_size_nonneg N (heap w !!! placements self) Hn) as Hs.
  match goal with
  | |- context [shard_loop _ _ _ ?r ?t ?metas [] ?w0] =>
      assert (Forall (fun meta =>
                is_ok (_parse_and_validate_remote_device _remote_device env
                         pg (placement meta)) = true
                ∧ ∃ (i : nat) p,
                    Z.of_nat i
                    < ceil_div N
                        (ceil_div N
                           (Z.of_nat (length (heap w !!! placements self))))
                    ∧ meta = chunk_descriptor
                               (Z.to_nat (normalize_dim d
                                  (Z.of_nat (length (t_size tensor)))))
                               (t_size t) N
                               (ceil_div N
                                  (Z.of_nat
                                     (length (heap w !!! placements self))))
                               (Z.of_nat i) p) metas) as Hmetas;
      [|destruct (shard_loop_total _remote_device env pg r t _ N _ metas
                    HN Hn Hs Hflag Hmetas [] w0) as (ls & wend & Hloop)]
  end.
  { apply Forall_lookup. intros i meta Hmeta.
    apply chunk_descriptors_at in Hmeta as (p & Hp & Hi & ->); [|done..].
    split; [|by exists i, p]. cbn [chunk_descriptor placement]. eauto. }
  exists ls, wend. split; [exact Hloop|]. rewrite Hloop.
  by destruct (init_failure env ls (t_size tensor) pg).
Qed.

Lemma shard_succeeds_witness :
  is_ok (fst (shard no_strings (env_of 0 2) stray_fourth_spec
                (tensor_of 7 [3] false None) 0 None stray_fourth)) = true.
Proof.
  destruct (shard_succeeds no_strings (env_of 0 2) stray_fourth_spec
              (tensor_of 7 [3] false None) 0 None stray_fourth 0 3)
    as (ls & w1 & _ & ->);
    [reflexivity|simpl; lia|reflexivity|lia|vm_compute; discriminate| |
     left; reflexivity|reflexivity|reflexivity].
  intros i p Hp Hi. change (ceil_div 3 (ceil_div 3 _)) with 3 in Hi.
  destruct i as [|[|[|i]]]; [| | |lia];
    vm_compute in Hp; injection Hp as <-; reflexivity.
Defined.

(** ** The rank check of [EnumerableShardingSpec.__post_init__] *)

Section RankLoop.

Implicit Types (s : ShardMetadata) (l : list ShardMetadata).

(** The two ranks of the error are those of the value the loop carried
    and the first shard, or those of two shards next to each other. *)
Lemma rank_loop_Raise_where l : ∀ rank r1 r2,
  rank_loop rank l = Raise (ValueError (InconsistentRanks r1 r2)) →
  (rank ≠ -1 ∧ r1 = rank
   ∧ ∃ s, l !! 0%nat = Some s ∧ r2 = Z.of_nat (length (shard_offsets s)))
  ∨ ∃ (i : nat) s1 s2,
      l !! i = Some s1 ∧ l !! S i = Some s2
      ∧ r1 = Z.of_nat (length (shard_offsets s1))
      ∧ r2 = Z.of_nat (length (shard_offsets s2)).
Proof.
  induction l as [|s l IH]; intros rank r1 r2; [done|].
  cbn [rank_loop].
  destruct (Z.eqb_spec rank (-1)) as [->|Hrank]; cbn [negb andb].
  - intros Hrest. right.
    apply IH in Hrest as [(_ & -> & s2 & Hs2 & ->)|(i & s1 & s2 & H1 & H2 & Hr)].
    + by exists 0%nat, s, s2.
    + by exists (S i), s1, s2.
  - destruct (Z.eqb_spec rank (Z.of_nat (length (shard_offsets s))))
      as [->|Hne]; cbn [negb].
    + intros Hrest. right.
      apply IH in Hrest
        as [(_ & -> & s2 & Hs2 & ->)|(i & s1 & s2 & H1 & H2 & Hr)].
      * by exists 0%nat, s, s2.
      * by exists (S i), s1, s2.
    + intros [= <- <-]. left. eauto.
Qed.

End RankLoop.

Lemma validate_non_overlapping_cases (l : list ShardMetadata) :
  validate_non_overlapping_shards_metadata l = Ok tt
  ∨ validate_non_overlapping_shards_metadata l = Raise OverlapError.
Proof.
  induction l as [|s l IH]; [by left|]. simpl.
  destruct (existsb _ l); [by right|done].
Qed.

(** X14. Construction of an [EnumerableShardingSpec] raises the
    inconsistent-rank error exactly when two of the shards have offsets of
    different lengths; the lengths of the sizes play no part. The two
    ranks the error reports are different and belong to two shards that
    stand next to each other in the list. *)
Theorem EnumerableShardingSpec_rank_error (l : list ShardMetadata) :
  ((∃ r1 r2, EnumerableShardingSpec_new l
             = Raise (ValueError (InconsistentRanks r1 r2)))
   ↔ ∃ (i j : nat) s1 s2,
       l !! i = Some s1 ∧ l !! j = Some s2
       ∧ length (shard_offsets s1) ≠ length (shard_offsets s2))
  ∧ ∀ r1 r2,
      EnumerableShardingSpec_new l
      = Raise (ValueError (InconsistentRanks r1 r2)) →
      r1 ≠ r2
      ∧ ∃ (i : nat) s1 s2,
          l !! i = Some s1 ∧ l !! S i = Some s2
          ∧ r1 = Z.of_nat (length (shard_offsets s1))
          ∧ r2 = Z.of_nat (length (shard_offsets s2)).
Proof.
  assert (∀ r1 r2,
            EnumerableShardingSpec_new l
            = Raise (ValueError (InconsistentRanks r1 r2)) →
            rank_loop (-1) l = Raise (ValueError (InconsistentRanks r1 r2)))
    as Hloop.
  { intros r1 r2. unfold EnumerableShardingSpec_new,
      EnumerableShardingSpec_post_init. cbn [shards].
    destruct l as [|s l']; [done|]. cbn [length Nat.eqb].
    destruct (rank_loop (-1) (s :: l')) as [[]|e]; [|by intros [= ->]].
    cbn [rbind].
    by destruct (validate_non_overlapping_cases (s :: l')) as [-> | ->]. }
  assert (∀ r1 r2,
            EnumerableShardingSpec_new l
            = Raise (ValueError (InconsistentRanks r1 r2)) →
            r1 ≠ r2
            ∧ ∃ (i : nat) s1 s2,
                l !! i = Some s1 ∧ l !! S i = Some s2
                ∧ r1 = Z.of_nat (length (shard_offsets s1))
                ∧ r2 = Z.of_nat (length (shard_offsets s2))) as Hwhere.
  { intros r1 r2 Hnew. apply Hloop in Hnew. split.
    - apply rank_loop_Raise in Hnew as (r1' & r2' & [= -> ->] & Hne). done.
    - by apply rank_loop_Raise_where in Hnew as [(? & _)|?]. }
  split; [|exact Hwhere]. split.
  - intros (r1 & r2 & Hnew).
    destruct (Hwhere r1 r2 Hnew) as (Hne & i & s1 & s2 & H1 & H2 & -> & ->).
    exists i, (S i), s1, s2. repeat split; try done. lia.
  - intros (i & j & s1 & s2 & H1 & H2 & Hne).
    unfold EnumerableShardingSpec_new, EnumerableShardingSpec_post_init.
    cbn [shards]. destruct l as [|s l']; [done|]. cbn [length Nat.eqb].
    destruct (rank_loop (-1) (s :: l')) as [[]|e] eqn:Hrank.
    + by destruct Hne, (rank_loop_consistent (s :: l') i j s1 s2).
    + apply rank_loop_Raise in Hrank as (r1 & r2 & -> & _). eauto.
Qed.

Lemma EnumerableShardingSpec_rank_error_witness :
  ∃ r1 r2, EnumerableShardingSpec_new ragged
           = Raise (ValueError (InconsistentRanks r1 r2)).
Proof.
  apply (proj1 (EnumerableShardingSpec_rank_error ragged)).
  exists 0%nat, 1%nat, (mkShardMetadata [0] [2] (rank_dev 0)),
    (mkShardMetadata [0; 0] [2; 2] (rank_dev 1)).
  repeat split. simpl. lia.
Defined.

(** ** Chunk metadata as an enumeration *)

Section EnumerableAccepts.

Implicit Types (s : ShardMetadata) (l : list ShardMetadata).

Lemma rank_loop_same_rank l (r : Z) : ∀ rank,
  Forall (fun s => Z.of_nat (length (shard_offsets s)) = r) l →
  rank = -1 ∨ rank = r →
  rank_loop rank l = Ok tt.
Proof.
  induction l as [|s l IH]; intros rank Hall Hrank; [done|].
  apply Forall_cons in Hall as [Hs Hall]. cbn [rank_loop]. rewrite Hs.
  replace (negb (rank =? -1) && negb (rank =? r)) with false.
  - apply IH; [done|by right].
  - symmetry. destruct Hrank as [-> | ->]; [done|].
    by rewrite Z.eqb_refl, andb_false_r.
Qed.

(** Two shards whose ranges are apart on some dimension fail the
    pairwise test. *)
Lemma pair_check_apart s1 s2 (j : nat) o1 z1 o2 z2 :
  shard_offsets s1 !! j = Some o1 → shard_sizes s1 !! j = Some z1 →
  shard_offsets s2 !! j = Some o2 → shard_sizes s2 !! j = Some z2 →
  ranges_disjoint o1 z1 o2 z2 →
  _check_shard_metadata_pair_overlap s1 s2 = false.
Proof.
  intros Ho1 Hz1 Ho2 Hz2 Hdisj.
  destruct (_check_shard_metadata_pair_overlap s1 s2) eqn:Hcheck; [|done].
  unfold _check_shard_metadata_pair_overlap in Hcheck.
  rewrite forallb_zip_lookup in Hcheck.
  specialize (Hcheck j (o1, z1) (o2, z2)). cbv beta iota in Hcheck.
  rewrite andb_true_iff, !Z.ltb_lt in Hcheck.
  destruct Hcheck; [apply lookup_zip_with_Some; eauto..|].
  unfold ranges_disjoint in Hdisj. lia.
Qed.

Lemma validate_non_overlapping_apart l :
  (∀ (i j : nat) s1 s2,
     (i < j)%nat → l !! i = Some s1 → l !! j = Some s2 →
     _check_shard_metadata_pair_overlap s1 s2 = false) →
  validate_non_overlapping_shards_metadata l = Ok tt.
Proof.
  induction l as [|s l IH]; intros Hpairs; [done|].
  cbn [validate_non_overlapping_shards_metadata].
  destruct (existsb _ l) eqn:Hex.
  - apply existsb_exists in Hex as (s2 & Hin & Hc).
    apply list_elem_of_In, list_elem_of_lookup_1 in Hin as [j Hj].
    rewrite (Hpairs 0%nat (S j) s s2) in Hc; [done|lia|done|done].
  - apply IH. intros i j s1 s2 Hij H1 H2.
    apply (Hpairs (S i) (S j)); [lia|done|done].
Qed.

End EnumerableAccepts.

(** X15. The descriptors [ChunkShardingSpec.build_metadata] emits for a
    non-empty dimension make a valid enumeration: an
    [EnumerableShardingSpec] can be constructed from them, and its
    [build_metadata] accepts them for the same shape and returns them
    unchanged. For an empty dimension there is no descriptor, and the
    construction is refused for the empty list. The overlap and coverage
    checks are the ones the spec describes. *)
Theorem chunk_metadata_is_enumerable
    env h self tensor_sizes props pg d N md :
  dim self = DimInt d →
  - Z.of_nat (length tensor_sizes) ≤ d < Z.of_nat (length tensor_sizes) →
  tensor_sizes !! Z.to_nat (normalize_dim d (Z.of_nat (length tensor_sizes)))
  = Some N →
  0 ≤ N →
  build_metadata env h self tensor_sizes props pg = Ok md →
  (0 < N →
   EnumerableShardingSpec_new (shards_metadata md)
   = Ok (mkEnumerableShardingSpec (shards_metadata md))
   ∧ Enumerable_build_metadata
       (mkEnumerableShardingSpec (shards_metadata md)) tensor_sizes props pg
     = Ok md)
  ∧ (N = 0 →
     EnumerableShardingSpec_new (shards_metadata md)
     = Raise (ValueError EmptyShardList)).
Proof.
  intros Hdim Hd HN Hn Hbuild.
  destruct (build_metadata_Ok env h self tensor_sizes props pg d N
              Hdim Hd HN md Hbuild) as [Hpls ->].
  cbn [shards_metadata].
  set (k := Z.to_nat (normalize_dim d (Z.of_nat (length tensor_sizes)))) in *.
  set (pls := h !!! placements self) in *.
  set (s := ceil_div N (Z.of_nat (length pls))).
  pose proof (split_size_nonneg N pls Hn) as Hs. fold s in Hs.
  assert (0 < Z.of_nat (length pls)) as HK
    by (destruct pls; [done|simpl; lia]).
  pose proof (ceil_div_bounds N _ HK) as [_ Henough]. fold s in Henough.
  pose proof (lookup_lt_Some _ _ _ HN) as Hk.
  pose proof (chunk_descriptors_length k tensor_sizes N s Hn Hs pls) as Hlen.
  split.
  - intros Hpos.
    assert (0 < s) as Hspos.
    { destruct (Z.eq_dec s 0) as [E|]; [|lia]. rewrite E in Henough. lia. }
    pose proof (ceil_div_bounds N s Hspos) as [_ Hcs].
    assert (0 < ceil_div N s).
    { destruct (Z_lt_ge_dec 0 (ceil_div N s)) as [|Hge]; [done|].
      assert (ceil_div N s * s ≤ 0 * s)
        by (apply Z.mul_le_mono_nonneg_r; lia). lia. }
    split.
    + unfold EnumerableShardingSpec_new, EnumerableShardingSpec_post_init.
      cbn [shards].
      destruct (chunk_descriptors k tensor_sizes N s pls) as [|sm0 l0] eqn:E;
        [simpl in Hlen; lia|]. rewrite <- E. cbn [length Nat.eqb].
      replace (Nat.eqb (length (chunk_descriptors k tensor_sizes N s pls)) 0)
        with false by (rewrite E; done).
      rewrite (rank_loop_same_rank _ (Z.of_nat (length tensor_sizes)));
        [|apply Forall_lookup; intros i sm Hsm;
          apply chunk_descriptors_at in Hsm as (p & _ & _ & ->); [|done..];
          f_equal;
          apply (chunk_descriptor_lengths k tensor_sizes N s (Z.of_nat i) p)
         |by left].
      cbn [rbind]. rewrite validate_non_overlapping_apart; [done|].
      intros i j s1 s2 Hij H1 H2.
      destruct (chunk_descriptors_disjoint k tensor_sizes N s Hn Hs pls i j
                  s1 s2 Hk ltac:(lia) H1 H2)
        as (o1 & z1 & o2 & z2 & Ho1 & Hz1 & Ho2 & Hz2 & Hdisj).
      by apply (pair_check_apart s1 s2 k o1 z1 o2 z2).
    + unfold Enumerable_build_metadata. cbn [shards].
      assert (check_tensor (chunk_descriptors k tensor_sizes N s pls)
                tensor_sizes = Ok tt) as ->; [|done].
      apply check_tensor_Ok, chunk_descriptors_tile; [done..|lia].
  - intros HN0. assert (ceil_div N s = 0) as E0 by (by rewrite HN0).
    rewrite E0 in Hlen.
    destruct (chunk_descriptors k tensor_sizes N s pls); [done|].
    simpl in Hlen. lia.
Qed.

Lemma chunk_metadata_is_enumerable_witness :
  EnumerableShardingSpec_new
    [mkShardMetadata [0; 0] [4; 2] (rank_dev 0);
     mkShardMetadata [4; 0] [4; 2] (rank_dev 1);
     mkShardMetadata [8; 0] [2; 2] (rank_dev 2)]
  = Ok (mkEnumerableShardingSpec
          [mkShardMetadata [0; 0] [4; 2] (rank_dev 0);
           mkShardMetadata [4; 0] [4; 2] (rank_dev 1);
           mkShardMetadata [8; 0] [2; 2] (rank_dev 2)]).
Proof.
  destruct (chunk_metadata_is_enumerable (env_of 0 4) (heap three_ranks)
              thirds_spec [10; 2] sample_props None 0 10
              (mkShardedTensorMetadata
                 [mkShardMetadata [0; 0] [4; 2] (rank_dev 0);
                  mkShardMetadata [4; 0] [4; 2] (rank_dev 1);
                  mkShardMetadata [8; 0] [2; 2] (rank_dev 2)]
                 [10; 2] sample_props)
              eq_refl ltac:(simpl; lia) eq_refl ltac:(lia)
              ltac:(vm_compute; reflexivity)) as [Hpos _].
  apply Hpos. lia.
Defined.

(** ** A rank that no shard is assigned to *)

Section Unassigned.

Context (_remote_device : string → result remote_device) (env : DistEnv)
  (pg : option ProcessGroup) (current_rank : Z) (tensor : Tensor).

Lemma shard_loop_unassigned (rest : list ShardMetadata) :
  ∀ acc w ls w',
    Forall (fun sm =>
              assigned_to _remote_device env pg current_rank sm = false)
      rest →
    shard_loop _remote_device env pg current_rank tensor rest acc w
    = (Ok ls, w') →
    ls = acc ∧ w' = w.
Proof.
  induction rest as [|meta rest IH]; intros acc w ls w' Hall Hrun.
  - by injection Hrun as <- <-.
  - apply Forall_cons in Hall as [Hmeta Hall].
    cbn [shard_loop] in Hrun. unfold mbind' at 1, lift at 1 in Hrun.
    unfold assigned_to, resolved_rank in Hmeta.
    destruct (_parse_and_validate_remote_device _ _ _ _) as [rd|e];
      [|done].
    cbv zeta in Hrun. rewrite Hmeta in Hrun. by eapply IH.
Qed.

End Unassigned.

(** X16. On a rank that none of the metadata's shards is assigned to,
    for instance the last rank of a group with fewer placements than
    ranks, a completed [shard] returns a handle without local shards and
    has copied nothing: no storage was allocated, and after taking part
    in the broadcast the rank only ran the handle constructor on an empty
    list of shards. *)
Theorem shard_of_unassigned_rank
    _remote_device env self tensor src pg w md handle w' :
  build_metadata env (heap w) self (t_size tensor)
    (mkTensorProperties (t_dtype tensor) (t_layout tensor)
       (t_requires_grad tensor) "contiguous_format" (t_pinned tensor))
    pg = Ok md →
  Forall (fun sm =>
            assigned_to _remote_device env pg (get_rank env pg) sm = false)
    (shards_metadata md) →
  shard _remote_device env self tensor src pg w = (Ok handle, w') →
  st_local_shards handle = []
  ∧ next_storage w' = next_storage w
  ∧ collectives w'
    = collectives w
      ++ Broadcast (t_storage tensor) src pg
         :: init_collectives env [] (t_size tensor) pg.
Proof.
  intros Hbuild Hall Hrun. rewrite shard_unfold in Hrun. cbv zeta in Hrun.
  rewrite Hbuild in Hrun.
  destruct (broadcast_failure env src pg); [done|].
  destruct (shard_loop _ _ _ _ _ _ _ _) as [[ls|e] wend] eqn:Hloop; [|done].
  apply shard_loop_unassigned in Hloop as [-> ->]; [|done].
  destruct (init_failure env [] (t_size tensor) pg); [done|].
  injection Hrun as <- <-.
  cbn [st_local_shards world_after_init next_storage collectives].
  by rewrite <- app_assoc.
Qed.

Lemma shard_of_unassigned_rank_witness :
  st_local_shards
    (handle_of (shard no_strings (env_of 3 4) thirds_spec
                  (tensor_of 7 [6; 4] false None) 0 None three_ranks)) = []
  ∧ next_storage
      (snd (shard no_strings (env_of 3 4) thirds_spec
              (tensor_of 7 [6; 4] false None) 0 None three_ranks))
    = next_storage three_ranks
  ∧ collectives
      (snd (shard no_strings (env_of 3 4) thirds_spec
              (tensor_of 7 [6; 4] false None) 0 None three_ranks))
    = collectives three_ranks
      ++ Broadcast 7 0 None
         :: init_collectives (env_of 3 4) [] [6; 4] None.
Proof.
  apply (shard_of_unassigned_rank no_strings (env_of 3 4) thirds_spec
           (tensor_of 7 [6; 4] false None) 0 None three_ranks
           (mkShardedTensorMetadata
              [mkShardMetadata [0; 0] [2; 4] (rank_dev 0);
               mkShardMetadata [2; 0] [2; 4] (rank_dev 1);
               mkShardMetadata [4; 0] [2; 4] (rank_dev 2)]
              [6; 4]
              (mkTensorProperties "float32" "strided" false
                 "contiguous_format" false))).
  - vm_compute. reflexivity.
  - repeat constructor.
  - vm_compute. reflexivity.
Defined.
